(** * Navigation controller of the client router (src/index.js)

    A shallow embedding of [fetchContent], [handlePopState], [navigate] and
    the render of [Root], with the browser pieces they act on: the session
    history behind [window.history], the outbound requests issued through
    [fetch], and the promises whose settlement runs the [.then] callback of
    [navigate].

    The event loop is single threaded: a settled fetch runs its reaction
    to completion before any other event is handled, so every event is one
    atomic step on the state [World]. *)

From Stdlib Require Import Ascii.
From stdpp Require Import gmap strings list.

(** ** Values *)

(** A location is the path and query of the address bar. *)
Abbreviation Location := string (only parsing).

(** The characters that the browser's URL parser copies as they are, in
    the path and in the query of an http(s) URL: printable ASCII other
    than the double quote (34), the hash (35), the single quote (39),
    the angle brackets (60, 62), the backslash (92), the caret (94), the
    backtick (96) and the braces (123, 125).  The space, the controls and
    the bytes above the tilde are percent-encoded or stripped. *)
Definition copied_verbatim (c : ascii) : bool :=
  let n := nat_of_ascii c in
  (33 <=? n) && (n <=? 126) &&
  negb (existsb (Nat.eqb n) [34; 35; 39; 60; 62; 92; 94; 96; 123; 125]).

(** A path segment with every [%2e] and [%2E] read as a dot. *)
Fixpoint decode_dots (cs : list ascii) : list ascii :=
  match cs with
  | [] => []
  | "%"%char :: "2"%char :: "e"%char :: rest => "."%char :: decode_dots rest
  | "%"%char :: "2"%char :: "E"%char :: rest => "."%char :: decode_dots rest
  | c :: rest => c :: decode_dots rest
  end.

(** The segments [.] and [..], which the URL parser removes from a path. *)
Definition dot_segment (segment : list ascii) : bool :=
  match decode_dots segment with
  | ["."%char] | ["."%char; "."%char] => true
  | _ => false
  end.

(** The pieces of [cs] between the occurrences of [sep]. *)
Fixpoint split_on (sep : ascii) (cs : list ascii) : list (list ascii) :=
  match cs with
  | [] => [[]]
  | c :: rest =>
      if bool_decide (c = sep) then [] :: split_on sep rest
      else match split_on sep rest with
           | [] => [[c]]
           | piece :: pieces => (c :: piece) :: pieces
           end
  end.

(** The path of a location, and its query when it has a [?]. *)
Fixpoint split_query (cs : list ascii) : list ascii * option (list ascii) :=
  match cs with
  | [] => ([], None)
  | c :: rest =>
      if bool_decide (c = "?"%char) then ([], Some rest)
      else let '(path, query) := split_query rest in (c :: path, query)
  end.

(** The locations that are their own [pathname + search]: the strings
    that the URL parser, resolving them against an http(s) document,
    turns into a URL of the same origin whose path and query are the
    string itself.  Such a string starts with one [/], holds only
    characters copied verbatim, has no dot segment in its path, and has
    no empty query. *)
Definition canonical (l : string) : bool :=
  match String.list_ascii_of_string l with
  | "/"%char :: rest =>
      negb (bool_decide (head rest = Some "/"%char)) &&
      forallb copied_verbatim rest &&
      let '(path, query) := split_query rest in
      forallb (λ segment, negb (dot_segment segment)) (split_on "/"%char path) &&
      negb (bool_decide (query = Some []))
  | _ => false
  end.

(** [Symbol(description)]: a value equal only to itself.  [sym_id] is the
    allocation number, the identity that [!==] compares. *)
Record Symbol := { sym_id : nat; sym_description : string }.

Definition same_symbol (a b : Symbol) : bool := bool_decide (sym_id a = sym_id b).

(** [thisNav !== latestNav.current], where the ref holds [null] or a symbol. *)
Definition differs_from_current (thisNav : Symbol) (current : option Symbol) : bool :=
  match current with
  | None => true
  | Some latest => negb (same_symbol thisNav latest)
  end.

(** What the server answers with: a status line and a body. *)
Record Response := { status : nat; body : string }.

(** [response.ok]: the status is in the range 200-299. *)
Definition ok (r : Response) : bool := bool_decide (200 ≤ status r ≤ 299)%nat.

(** What happens to a request on the network. *)
Inductive NetworkOutcome :=
| NetworkFailure (reason : string)
| HttpResponse (response : Response).

(** A settled promise. *)
Inductive Settled (A : Type) :=
| Fulfilled (value : A)
| Rejected (reason : string).
Arguments Fulfilled {A} value.
Arguments Rejected {A} reason.

(** The promise returned by the platform's [fetch]: it rejects on a network
    failure only; any HTTP response, whatever its status, fulfils it. *)
Definition fetch_settles (o : NetworkOutcome) : Settled Response :=
  match o with
  | NetworkFailure reason => Rejected reason
  | HttpResponse response => Fulfilled response
  end.

(** ** [window.history] *)

Module WindowHistory.

(** The session history: its entries and the position of the current one. *)
Record t := { entries : list Location; index : nat }.

Definition wf (h : t) : Prop := index h < length (entries h).

(** [pushState({}, '', url)]: the entries after the current one are
    dropped, a new entry follows the current one and becomes current.
    The url is recorded as given, which is what the browser does for a
    [canonical] location; any other url it resolves against the document
    first, and it throws for a url of another origin. *)
Definition pushState (url : Location) (h : t) : t :=
  {| entries := take (S (index h)) (entries h) ++ [url];
     index := S (index h) |}.

(** [replaceState({}, '', url)]: the current entry is overwritten, with
    the url as given: see [pushState] for the urls this holds for. *)
Definition replaceState (url : Location) (h : t) : t :=
  {| entries := <[index h := url]> (entries h);
     index := index h |}.

(** The user goes back or forward by [delta] entries.  The browser moves
    only when the target exists; [None] when no traversal takes place. *)
Definition traverse (delta : Z) (h : t) : option t :=
  let target := (Z.of_nat (index h) + delta)%Z in
  if bool_decide (delta ≠ 0 ∧ 0 ≤ target < Z.of_nat (length (entries h)))%Z
  then Some {| entries := entries h; index := Z.to_nat target |}
  else None.

End WindowHistory.

(** Modelled from the spec: [getGlobalLocation] is imported from router.js,
    which is not among the sources; section 4.1 has it read the live
    browser address state synchronously, without side effects. *)
Definition getGlobalLocation (h : WindowHistory.t) : Location :=
  default EmptyString (WindowHistory.entries h !! WindowHistory.index h).

(** The calls the program makes on [window.history], in order. *)
Inductive HistoryCall :=
| PushState (url : Location)
| ReplaceState (url : Location).

(** ** The state the program runs in *)

(** Who started a fetch, and what stands between the fetch promise and
    [createFromFetch]: nothing for the initial load and for [handlePopState],
    the [.then] callback closed over [thisNav] and [replace] for [navigate]. *)
Inductive Origin :=
| InitialLoad
| PopState
| Navigate (thisNav : Symbol) (replace : bool).

(** One argument of [createFromFetch]: the promise it was given, and what
    that promise settled to ([None] while the fetch is in flight).  The
    value of a fulfilment is the response or [undefined]. *)
Record Pipeline := {
  destination : Location;
  origin : Origin;
  received : option (Settled (option Response));
}.

Record World := {
  history : WindowHistory.t;              (* window.history *)
  history_calls : list HistoryCall;       (* pushState / replaceState calls made *)
  requests : list string;                 (* paths handed to fetch, in order *)
  symbols : nat;                          (* symbols created so far *)
  latestNav : option Symbol;              (* latestNav.current, null at first *)
  nextLocation : Location;                (* useState *)
  contentPromise : nat;                   (* useState: the promise given to use() *)
  pipelines : gmap nat Pipeline;          (* createFromFetch results, by fetch number *)
}.

Definition with_history (h : WindowHistory.t) (c : list HistoryCall) (w : World) : World :=
  {| history := h; history_calls := c; requests := requests w;
     symbols := symbols w; latestNav := latestNav w;
     nextLocation := nextLocation w; contentPromise := contentPromise w;
     pipelines := pipelines w |}.

Definition with_requests (r : list string) (w : World) : World :=
  {| history := history w; history_calls := history_calls w; requests := r;
     symbols := symbols w; latestNav := latestNav w;
     nextLocation := nextLocation w; contentPromise := contentPromise w;
     pipelines := pipelines w |}.

Definition with_pipelines (p : gmap nat Pipeline) (w : World) : World :=
  {| history := history w; history_calls := history_calls w;
     requests := requests w; symbols := symbols w; latestNav := latestNav w;
     nextLocation := nextLocation w; contentPromise := contentPromise w;
     pipelines := p |}.

(** [window.history.pushState({}, '', url)] *)
Definition pushState (url : Location) (w : World) : World :=
  with_history (WindowHistory.pushState url (history w))
               (history_calls w ++ [PushState url]) w.

(** [window.history.replaceState({}, '', url)] *)
Definition replaceState (url : Location) (w : World) : World :=
  with_history (WindowHistory.replaceState url (history w))
               (history_calls w ++ [ReplaceState url]) w.

(** [setNextLocation(l)] *)
Definition setNextLocation (l : Location) (w : World) : World :=
  {| history := history w; history_calls := history_calls w;
     requests := requests w; symbols := symbols w; latestNav := latestNav w;
     nextLocation := l; contentPromise := contentPromise w;
     pipelines := pipelines w |}.

(** [startTransition(() => setContentPromise(p))] *)
Definition setContentPromise (p : nat) (w : World) : World :=
  {| history := history w; history_calls := history_calls w;
     requests := requests w; symbols := symbols w; latestNav := latestNav w;
     nextLocation := nextLocation w; contentPromise := p;
     pipelines := pipelines w |}.

(** [Symbol(description)] *)
Definition mkSymbol (description : string) (w : World) : Symbol * World :=
  ({| sym_id := symbols w; sym_description := description |},
   {| history := history w; history_calls := history_calls w;
      requests := requests w; symbols := S (symbols w);
      latestNav := latestNav w; nextLocation := nextLocation w;
      contentPromise := contentPromise w; pipelines := pipelines w |}).

(** [latestNav.current = thisNav] *)
Definition set_latestNav (thisNav : Symbol) (w : World) : World :=
  {| history := history w; history_calls := history_calls w;
     requests := requests w; symbols := symbols w; latestNav := Some thisNav;
     nextLocation := nextLocation w; contentPromise := contentPromise w;
     pipelines := pipelines w |}.

(** ** The functions of index.js *)

(** [fetchContent(location)]: [fetch(`/rsc${location}`)].  The promise is
    named by the number of the request it belongs to. *)
Definition fetchContent (location : Location) (w : World) : nat * World :=
  (length (requests w), with_requests (requests w ++ ["/rsc" +:+ location]) w).

(** [createFromFetch(promise)], where [promise] is the fetch promise
    itself or the promise [.then] derived from it, as [o] says. *)
Definition createFromFetch (fetchPromise : nat) (o : Origin) (l : Location)
    (w : World) : nat * World :=
  (fetchPromise,
   with_pipelines
     (<[fetchPromise := {| destination := l; origin := o; received := None |}]>
        (pipelines w)) w).

(** The state after the module body has run, in a browser whose session
    history is [h]: the initial fetch is in flight and [Root] starts from
    [useRef(null)], [useState(getGlobalLocation)] and
    [useState(initialContentPromise)].  [nextLocation] is what [Root] reads
    if the browser has not moved by the time it mounts; [page_step] below
    has [Root] read it at that moment. *)
Definition initial_world (h : WindowHistory.t) : World :=
  let initialLocation := getGlobalLocation h in
  let w := {| history := h; history_calls := []; requests := [];
              symbols := 0; latestNav := None;
              nextLocation := initialLocation; contentPromise := 0;
              pipelines := ∅ |} in
  let '(fetchPromise, w) := fetchContent initialLocation w in
  let '(initialContentPromise, w) :=
    createFromFetch fetchPromise InitialLoad initialLocation w in
  setContentPromise initialContentPromise w.

(** [handlePopState()] *)
Definition handlePopState (w : World) : World :=
  let nextLocation := getGlobalLocation (history w) in
  let w := setNextLocation nextLocation w in
  let '(fetchPromise, w) := fetchContent nextLocation w in
  let '(nextContentPromise, w) :=
    createFromFetch fetchPromise PopState nextLocation w in
  setContentPromise nextContentPromise w.

(** The second argument of [navigate]: absent, or an object whose
    [replace] property may be absent. *)
Record NavigateOptions := { opt_replace : option bool }.

(** The destructuring [{ replace = false } = {}] *)
Definition replace_of (options : option NavigateOptions) : bool :=
  match options with
  | None => false
  | Some o => default false (opt_replace o)
  end.

(** [navigate(nextLocation, options)], up to its return: the [.then]
    callback is kept in the pipeline and runs in [settle]. *)
Definition navigate (nextLocation : Location) (options : option NavigateOptions)
    (w : World) : World :=
  let replace := replace_of options in
  let w := setNextLocation nextLocation w in
  let '(thisNav, w) := mkSymbol ("Nav for " +:+ nextLocation) w in
  let w := set_latestNav thisNav w in
  let '(fetchPromise, w) := fetchContent nextLocation w in
  let '(nextContentPromise, w) :=
    createFromFetch fetchPromise (Navigate thisNav replace) nextLocation w in
  setContentPromise nextContentPromise w.

(** The callback given to [.then] in [navigate]; [None] is [undefined].
    The history call is taken to return, as it does for a [canonical]
    location. *)
Definition onFulfilled (thisNav : Symbol) (replace : bool) (nextLocation : Location)
    (response : Response) (w : World) : option Response * World :=
  if differs_from_current thisNav (latestNav w) then (None, w)
  else if replace then (Some response, replaceState nextLocation w)
  else (Some response, pushState nextLocation w).

(** The promise given to [createFromFetch] settles. *)
Definition deliver (p : nat) (pl : Pipeline) (r : Settled (option Response))
    (w : World) : World :=
  with_pipelines
    (<[p := {| destination := destination pl; origin := origin pl;
               received := Some r |}]> (pipelines w)) w.

(** The fetch numbered [p] settles with outcome [o].  A promise settles
    once: nothing happens for one that is unknown or settled already.  A
    rejection passes through [.then(callback)] untouched. *)
Definition settle (p : nat) (o : NetworkOutcome) (w : World) : World :=
  match pipelines w !! p with
  | None => w
  | Some pl =>
      match received pl with
      | Some _ => w
      | None =>
          match fetch_settles o with
          | Rejected reason => deliver p pl (Rejected reason) w
          | Fulfilled response =>
              match origin pl with
              | Navigate thisNav replace =>
                  let '(value, w) :=
                    onFulfilled thisNav replace (destination pl) response w in
                  deliver p pl (Fulfilled value) w
              | InitialLoad | PopState =>
                  deliver p pl (Fulfilled (Some response)) w
              end
          end
      end
  end.

(** ** Events *)

Inductive Event :=
| Navigates (nextLocation : Location) (options : option NavigateOptions)
| Traverses (delta : Z)
| FetchSettles (p : nat) (o : NetworkOutcome).

(** A traversal moves the browser first, then fires [popstate].  This is
    the program while [Root] is mounted and listens; [page_step] below
    follows the listener through the life of [Root]. *)
Definition step (w : World) (e : Event) : World :=
  match e with
  | Navigates l options => navigate l options w
  | Traverses delta =>
      match WindowHistory.traverse delta (history w) with
      | Some h => handlePopState (with_history h (history_calls w) w)
      | None => w
      end
  | FetchSettles p o => settle p o w
  end.

Definition run (w : World) (es : list Event) : World := foldl step w es.

(** The states the program can be in. *)
Definition reachable (w : World) : Prop :=
  ∃ h es, WindowHistory.wf h ∧ w = run (initial_world h) es.

(** ** The render of [Root] *)

Section Render.

(** The decoder behind [RSC.createFromFetch] is not part of the program:
    [decode] says what its result is once its argument has settled,
    [None] for a result that is still pending. *)
Context {Tree : Type} (decode : Settled (option Response) → option (Settled Tree)).

Inductive Rendering :=
| Suspends
| Renders (tree : Tree)
| Throws (reason : string).

(** [use(contentPromise)], the only part of the render that can suspend
    or throw to the error boundary. *)
Definition Root (w : World) : Rendering :=
  match pipelines w !! contentPromise w with
  | None => Suspends
  | Some pl =>
      match received pl with
      | None => Suspends
      | Some r =>
          match decode r with
          | None => Suspends
          | Some (Fulfilled tree) => Renders tree
          | Some (Rejected reason) => Throws reason
          end
      end
  end.

End Render.

(** A decoder to run examples with: the tree is the body of the response,
    a rejection is passed on, and [undefined] never yields a tree. *)
Definition body_decoder (r : Settled (option Response)) : option (Settled string) :=
  match r with
  | Fulfilled (Some response) => Some (Fulfilled (body response))
  | Fulfilled None => None
  | Rejected reason => Some (Rejected reason)
  end.

(** A session that went from [/home] to [/list] and loaded the page there. *)
Definition list_after_home : WindowHistory.t :=
  {| WindowHistory.entries := ["/home"; "/list"]; WindowHistory.index := 1 |}.

Definition loaded (content : string) : NetworkOutcome :=
  HttpResponse {| status := 200; body := content |}.

(** ** What a navigation leaves behind *)

(** The committed state: the session history, the calls made on it, the
    destination shown as next, and the content handed to the render, read
    through the installed [contentPromise] as the location it was fetched
    for and what its pipeline received. *)
Record Committed := {
  c_history : WindowHistory.t;
  c_history_calls : list HistoryCall;
  c_nextLocation : Location;
  c_content : option (Location * option (Settled (option Response)));
}.

Definition committed (w : World) : Committed :=
  {| c_history := history w;
     c_history_calls := history_calls w;
     c_nextLocation := nextLocation w;
     c_content :=
       (λ pl, (destination pl, received pl)) <$> pipelines w !! contentPromise w |}.

(** The token of pipeline [p] is no longer the latest. *)
Definition superseded (w : World) (p : nat) : Prop :=
  ∃ pl thisNav replace,
    pipelines w !! p = Some pl ∧ origin pl = Navigate thisNav replace ∧
    differs_from_current thisNav (latestNav w) = true.

(** The history call a committing navigation makes. *)
Definition history_call (replace : bool) (url : Location) : HistoryCall :=
  if replace then ReplaceState url else PushState url.

(** Every case of [settle], seen from outside: the pipelines change at [p]
    at most, and the history is touched by one case only. *)
Inductive settle_case (p : nat) (o : NetworkOutcome) (w : World) : World → Prop :=
| settle_unknown :
    pipelines w !! p = None → settle_case p o w w
| settle_again pl r :
    pipelines w !! p = Some pl → received pl = Some r → settle_case p o w w
| settle_rejected pl reason :
    pipelines w !! p = Some pl → received pl = None →
    o = NetworkFailure reason →
    settle_case p o w (deliver p pl (Rejected reason) w)
| settle_direct pl response :
    pipelines w !! p = Some pl → received pl = None →
    o = HttpResponse response →
    origin pl = InitialLoad ∨ origin pl = PopState →
    settle_case p o w (deliver p pl (Fulfilled (Some response)) w)
| settle_stale pl response thisNav replace :
    pipelines w !! p = Some pl → received pl = None →
    o = HttpResponse response →
    origin pl = Navigate thisNav replace →
    differs_from_current thisNav (latestNav w) = true →
    settle_case p o w (deliver p pl (Fulfilled None) w)
| settle_commit pl response thisNav replace :
    pipelines w !! p = Some pl → received pl = None →
    o = HttpResponse response →
    origin pl = Navigate thisNav replace →
    differs_from_current thisNav (latestNav w) = false →
    settle_case p o w
      (deliver p pl (Fulfilled (Some response))
         (if replace then replaceState (destination pl) w
          else pushState (destination pl) w)).

(** Two states that show the same and agree on pipeline [q]. *)
Definition alike (q : nat) (w w' : World) : Prop :=
  history w' = history w ∧ history_calls w' = history_calls w ∧
  nextLocation w' = nextLocation w ∧ latestNav w' = latestNav w ∧
  contentPromise w' = contentPromise w ∧
  pipelines w' !! q = pipelines w !! q.

(** A run of [navigate] calls, and a run of settlements. *)
Definition navigations (ns : list (Location * option NavigateOptions)) : list Event :=
  map (λ n, Navigates n.1 n.2) ns.

Definition settlements (ss : list (nat * NetworkOutcome)) : list Event :=
  map (λ s, FetchSettles s.1 s.2) ss.

(** Fetch numbers and symbols are handed out in order; the installed
    [contentPromise] is the newest pipeline; and when that pipeline was
    made by [navigate], its token is the latest one. *)
Record invariant (w : World) : Prop := {
  inv_content : contentPromise w < length (requests w);
  inv_newest : ∀ p pl, pipelines w !! p = Some pl → p ≤ contentPromise w;
  inv_tokens : ∀ p pl thisNav replace,
    pipelines w !! p = Some pl → origin pl = Navigate thisNav replace →
    sym_id thisNav < symbols w;
  inv_latest : ∀ latest, latestNav w = Some latest → sym_id latest < symbols w;
  inv_installed : ∀ pl thisNav replace,
    pipelines w !! contentPromise w = Some pl →
    origin pl = Navigate thisNav replace →
    differs_from_current thisNav (latestNav w) = false;
}.

(** ** Coherence of reachable states *)

(** What every state the program reaches satisfies, beyond [invariant]:
    the session history has a current entry; the pipelines are the
    fetches made so far, each fetched from the path of its destination;
    the installed content promise is the newest fetch and was fetched for
    [nextLocation]; tokens grow with the fetch number and are described
    after their destination; only a superseded navigation has received
    [undefined]; and every call made on the history belongs to a
    navigation that received a response. *)
Record coherent (w : World) : Prop := {
  coh_history : WindowHistory.wf (history w);
  coh_keys : ∀ p, is_Some (pipelines w !! p) ↔ p < length (requests w);
  coh_paths : ∀ p pl,
    pipelines w !! p = Some pl →
    requests w !! p = Some ("/rsc" +:+ destination pl);
  coh_newest : S (contentPromise w) = length (requests w);
  coh_shown : ∃ pl,
    pipelines w !! contentPromise w = Some pl ∧ destination pl = nextLocation w;
  coh_order : ∀ p q plp plq tp tq rp rq,
    p < q →
    pipelines w !! p = Some plp → origin plp = Navigate tp rp →
    pipelines w !! q = Some plq → origin plq = Navigate tq rq →
    sym_id tp < sym_id tq;
  coh_described : ∀ p pl thisNav replace,
    pipelines w !! p = Some pl → origin pl = Navigate thisNav replace →
    sym_description thisNav = "Nav for " +:+ destination pl;
  coh_undefined : ∀ p pl,
    pipelines w !! p = Some pl → received pl = Some (Fulfilled None) →
    superseded w p;
  coh_log : ∀ c, c ∈ history_calls w →
    ∃ p pl thisNav replace response,
      pipelines w !! p = Some pl ∧ origin pl = Navigate thisNav replace ∧
      received pl = Some (Fulfilled (Some response)) ∧
      c = history_call replace (destination pl);
}.

(** A decoder that fails on [undefined] where [body_decoder] stays
    pending. *)
Definition strict_decoder (r : Settled (option Response)) : option (Settled string) :=
  match r with
  | Fulfilled None => Some (Rejected "TypeError")
  | _ => body_decoder r
  end.

(** The page is loaded and two navigations are in flight, the first one
    superseded by the second. *)
Definition two_in_flight : World :=
  run (initial_world list_after_home)
      [FetchSettles 0 (loaded "list"); Navigates "/a" None; Navigates "/b" None].

(** A pipeline of [navigate] whose fetch has not settled yet. *)
Definition awaits_settlement (pl : Pipeline) : bool :=
  match origin pl, received pl with
  | Navigate _ _, None => true
  | _, _ => false
  end.

(** The navigations in flight. *)
Definition navigations_in_flight (w : World) : nat :=
  size (filter (λ kv : nat * Pipeline, awaits_settlement kv.2 = true) (pipelines w)).

(** The calls of [navigate] in a run of events. *)
Fixpoint navigate_calls (es : list Event) : nat :=
  match es with
  | [] => 0
  | Navigates _ _ :: es => S (navigate_calls es)
  | _ :: es => navigate_calls es
  end.

(** ** The life of [Root] *)

(** [Root] is not there from the start.  Its first render suspends on the
    initial content, inside [Suspense], and React keeps nothing of a
    render that suspends before the first commit: the state of the hooks
    ([useState(getGlobalLocation)] among them) is made by the render that
    is committed, and the effect that registers [handlePopState] runs
    after that commit.  When a render of [Root] throws, the error
    boundary puts its fallback in the place of [Root], whose effect is
    cleaned up: the listener is removed, and [navigate] is handed out no
    more. *)
Inductive Lifecycle :=
| Loading    (* no render of Root has been committed yet *)
| Mounted    (* Root is rendered: navigate is handed out, popstate is heard *)
| Failed.    (* the error boundary has replaced Root *)

Record Page := { world : World; lifecycle : Lifecycle }.

Inductive PageEvent :=
| Happens (e : Event)     (* a call of navigate, a traversal, a settlement *)
| RootMounts              (* React commits the first render of Root *)
| BoundaryCatches.        (* React commits the fallback of the error boundary *)

(** The page when the module body has run. *)
Definition page_load (h : WindowHistory.t) : Page :=
  {| world := initial_world h; lifecycle := Loading |}.

Section Page.

Context {Tree : Type} (decode : Settled (option Response) → option (Settled Tree)).

Definition renders (w : World) : bool :=
  match Root decode w with Renders _ => true | _ => false end.

Definition throws (w : World) : bool :=
  match Root decode w with Throws _ => true | _ => false end.

(** One event on the page.  [navigate] can be called and [popstate] is
    heard only while [Root] is mounted; a traversal moves the browser
    in any case; the reaction of a settled fetch runs in any case, the
    callback of [navigate] holding on to [latestNav] and to the history.
    [Root] mounts once its render no longer suspends, reading
    [nextLocation] from the address bar at that moment. *)
Definition page_step (pg : Page) (ev : PageEvent) : Page :=
  match ev with
  | Happens (Navigates l options) =>
      match lifecycle pg with
      | Mounted => {| world := navigate l options (world pg); lifecycle := Mounted |}
      | _ => pg
      end
  | Happens (Traverses delta) =>
      match WindowHistory.traverse delta (history (world pg)) with
      | None => pg
      | Some h =>
          let moved := with_history h (history_calls (world pg)) (world pg) in
          match lifecycle pg with
          | Mounted => {| world := handlePopState moved; lifecycle := Mounted |}
          | Loading => {| world := moved; lifecycle := Loading |}
          | Failed => {| world := moved; lifecycle := Failed |}
          end
      end
  | Happens (FetchSettles p o) =>
      {| world := settle p o (world pg); lifecycle := lifecycle pg |}
  | RootMounts =>
      match lifecycle pg with
      | Loading =>
          if renders (world pg)
          then {| world := setNextLocation (getGlobalLocation (history (world pg)))
                             (world pg);
                  lifecycle := Mounted |}
          else pg
      | _ => pg
      end
  | BoundaryCatches =>
      match lifecycle pg with
      | Failed => pg
      | _ => if throws (world pg)
             then {| world := world pg; lifecycle := Failed |}
             else pg
      end
  end.

Definition page_run (pg : Page) (evs : list PageEvent) : Page :=
  foldl page_step pg evs.

(** The pages the program can be in. *)
Definition page_reachable (pg : Page) : Prop :=
  ∃ h evs, WindowHistory.wf h ∧ pg = page_run (page_load h) evs.

End Page.

(** The world of a page is a coherent world but for [nextLocation], which
    [Root] read when it mounted: it can differ from the destination of
    the content while that is still the initial content. *)
Definition page_coherent (pg : Page) : Prop :=
  ∃ w0 n, invariant w0 ∧ coherent w0 ∧
          world pg = setNextLocation n w0 ∧
          (n = nextLocation w0 ∨ contentPromise w0 = 0) ∧
          (lifecycle pg = Loading → contentPromise w0 = 0).

(** * Properties *)

(** ** Unfolding the operations *)

Lemma run_app (w : World) (es1 es2 : list Event) :
  run w (es1 ++ es2) = run (run w es1) es2.
Proof. apply foldl_app. Qed.

Lemma run_cons (w : World) (e : Event) (es : list Event) :
  run w (e :: es) = run (step w e) es.
Proof. reflexivity. Qed.

Lemma run_snoc (w : World) (es : list Event) (e : Event) :
  run w (es ++ [e]) = step (run w es) e.
Proof. by rewrite run_app. Qed.

Lemma navigate_unfold (l : Location) (options : option NavigateOptions) (w : World) :
  navigate l options w =
  {| history := history w; history_calls := history_calls w;
     requests := requests w ++ ["/rsc" +:+ l];
     symbols := S (symbols w);
     latestNav := Some {| sym_id := symbols w; sym_description := "Nav for " +:+ l |};
     nextLocation := l;
     contentPromise := length (requests w);
     pipelines :=
       <[length (requests w) :=
           {| destination := l;
              origin := Navigate {| sym_id := symbols w;
                                    sym_description := "Nav for " +:+ l |}
                                 (replace_of options);
              received := None |}]> (pipelines w) |}.
Proof. reflexivity. Qed.

Lemma handlePopState_unfold (w : World) :
  handlePopState w =
  {| history := history w; history_calls := history_calls w;
     requests := requests w ++ ["/rsc" +:+ getGlobalLocation (history w)];
     symbols := symbols w;
     latestNav := latestNav w;
     nextLocation := getGlobalLocation (history w);
     contentPromise := length (requests w);
     pipelines :=
       <[length (requests w) :=
           {| destination := getGlobalLocation (history w);
              origin := PopState; received := None |}]> (pipelines w) |}.
Proof. reflexivity. Qed.

Lemma same_symbol_refl (t : Symbol) : same_symbol t t = true.
Proof. unfold same_symbol. by apply bool_decide_eq_true. Qed.

Lemma differs_lt (t latest : Symbol) :
  sym_id t < sym_id latest → differs_from_current t (Some latest) = true.
Proof.
  intros Hlt. unfold differs_from_current, same_symbol.
  rewrite bool_decide_eq_false_2; [done | lia].
Qed.

Lemma settle_cases (p : nat) (o : NetworkOutcome) (w : World) :
  settle_case p o w (settle p o w).
Proof.
  unfold settle.
  destruct (pipelines w !! p) as [pl|] eqn:Hp; [|by constructor].
  destruct (received pl) as [r|] eqn:Hr; [by econstructor|].
  destruct o as [reason|response]; simpl; [by econstructor|].
  destruct (origin pl) as [| |thisNav replace] eqn:Ho;
    [eapply settle_direct; eauto .. |].
  unfold onFulfilled.
  destruct (differs_from_current thisNav (latestNav w)) eqn:Hd.
  - eapply settle_stale; eauto.
  - destruct replace; eapply (settle_commit _ _ _ _ _ _ _ Hp Hr eq_refl Ho Hd).
Qed.

(** Case analysis on a settlement, with the facts of each case named. *)
Ltac settle_inversion p o w :=
  destruct (settle_cases p o w)
    as [Hnone | pl r Hpl Hr | pl reason Hpl Hr Hout | pl response Hpl Hr Hout Hor
        | pl response thisNav replace Hpl Hr Hout Hor Hdf
        | pl response thisNav replace Hpl Hr Hout Hor Hdf].

(** ** The invariant of reachable states *)

Lemma invariant_initial (h : WindowHistory.t) : invariant (initial_world h).
Proof.
  split; cbn.
  - lia.
  - intros p pl Hp. destruct (decide (p = 0)) as [->|Hne]; [done|].
    by rewrite lookup_insert_ne in Hp.
  - intros p pl thisNav replace Hp Ho.
    destruct (decide (p = 0)) as [->|Hne].
    + rewrite lookup_insert_eq in Hp. by simplify_eq.
    + by rewrite lookup_insert_ne in Hp.
  - done.
  - intros pl thisNav replace Hp Ho.
    rewrite lookup_insert_eq in Hp. by simplify_eq.
Qed.

Lemma invariant_navigate (l : Location) (options : option NavigateOptions) (w : World) :
  invariant w → invariant (navigate l options w).
Proof.
  intros [Hc Hn Ht Hl Hi]. rewrite navigate_unfold. split; cbn.
  - rewrite length_app. cbn. lia.
  - intros p pl Hp.
    destruct (decide (p = length (requests w))) as [->|Hne]; [done|].
    rewrite lookup_insert_ne in Hp; [|done]. apply Hn in Hp. lia.
  - intros p pl thisNav replace Hp Ho.
    destruct (decide (p = length (requests w))) as [->|Hne].
    + rewrite lookup_insert_eq in Hp. simplify_eq. cbn in Ho. simplify_eq. cbn. lia.
    + rewrite lookup_insert_ne in Hp; [|done]. specialize (Ht _ _ _ _ Hp Ho). lia.
  - intros latest [= <-]. cbn. lia.
  - intros pl thisNav replace Hp Ho. rewrite lookup_insert_eq in Hp.
    simplify_eq. cbn in Ho. simplify_eq. cbn. by rewrite same_symbol_refl.
Qed.

Lemma invariant_handlePopState (w : World) :
  invariant w → invariant (handlePopState w).
Proof.
  intros [Hc Hn Ht Hl Hi]. rewrite handlePopState_unfold. split; cbn.
  - rewrite length_app. cbn. lia.
  - intros p pl Hp.
    destruct (decide (p = length (requests w))) as [->|Hne]; [done|].
    rewrite lookup_insert_ne in Hp; [|done]. apply Hn in Hp. lia.
  - intros p pl thisNav replace Hp Ho.
    destruct (decide (p = length (requests w))) as [->|Hne].
    + rewrite lookup_insert_eq in Hp. by simplify_eq.
    + rewrite lookup_insert_ne in Hp; [|done]. eauto.
  - done.
  - intros pl thisNav replace Hp Ho. rewrite lookup_insert_eq in Hp. by simplify_eq.
Qed.

(** Delivering a result changes what pipeline [p] received, nothing else. *)
Lemma invariant_deliver (p : nat) (pl : Pipeline) (r : Settled (option Response)) (w : World) :
  pipelines w !! p = Some pl → invariant w → invariant (deliver p pl r w).
Proof.
  intros Hpl [Hc Hn Ht Hl Hi]. split; cbn; try done.
  - intros q ql Hq. destruct (decide (q = p)) as [->|Hne]; [eauto|].
    rewrite lookup_insert_ne in Hq; eauto.
  - intros q ql thisNav replace Hq Ho. destruct (decide (q = p)) as [->|Hne].
    + rewrite lookup_insert_eq in Hq. simplify_eq. cbn in Ho. eauto.
    + rewrite lookup_insert_ne in Hq; eauto.
  - intros ql thisNav replace Hq Ho.
    destruct (decide (contentPromise w = p)) as [<-|Hne].
    + rewrite lookup_insert_eq in Hq. simplify_eq. cbn in Ho. eauto.
    + rewrite lookup_insert_ne in Hq; eauto.
Qed.

Lemma invariant_with_history (h : WindowHistory.t) (c : list HistoryCall) (w : World) :
  invariant w → invariant (with_history h c w).
Proof. intros [Hc Hn Ht Hl Hi]. by split. Qed.

Lemma invariant_settle (p : nat) (o : NetworkOutcome) (w : World) :
  invariant w → invariant (settle p o w).
Proof.
  intros Hinv. destruct (settle_cases p o w); try done;
    try (by apply invariant_deliver).
  apply invariant_deliver; [by destruct replace|].
  destruct replace; by apply invariant_with_history.
Qed.

Lemma invariant_step (w : World) (e : Event) : invariant w → invariant (step w e).
Proof.
  intros Hinv. destruct e as [l options|delta|p o]; cbn.
  - by apply invariant_navigate.
  - destruct (WindowHistory.traverse delta (history w)); [|done].
    by apply invariant_handlePopState, invariant_with_history.
  - by apply invariant_settle.
Qed.

Lemma invariant_run (w : World) (es : list Event) : invariant w → invariant (run w es).
Proof.
  revert w. induction es as [|e es IH]; intros w Hinv; [done|].
  cbn. by apply IH, invariant_step.
Qed.

Lemma reachable_invariant (w : World) : reachable w → invariant w.
Proof. intros (h & es & _ & ->). apply invariant_run, invariant_initial. Qed.

Lemma reachable_step (w : World) (e : Event) : reachable w → reachable (step w e).
Proof.
  intros (h & es & Hwf & ->). exists h, (es ++ [e]). by rewrite run_snoc.
Qed.

Lemma reachable_run (w : World) (es : list Event) : reachable w → reachable (run w es).
Proof.
  intros (h & es0 & Hwf & ->). exists h, (es0 ++ es). by rewrite run_app.
Qed.

(** A navigation that has been superseded is older than the installed
    content promise. *)
Lemma superseded_older (w : World) (p : nat) :
  invariant w → superseded w p → p < contentPromise w.
Proof.
  intros [Hc Hn Ht Hl Hi] (pl & thisNav & replace & Hp & Ho & Hd).
  pose proof (Hn _ _ Hp) as Hle.
  destruct (decide (p = contentPromise w)) as [->|Hne]; [|lia].
  rewrite (Hi _ _ _ Hp Ho) in Hd. done.
Qed.

(** ** The fetcher *)

(** C9. For every location, [fetchContent] hands [fetch] the location
    prefixed by the one route segment [/rsc]; each call issues exactly one
    request and changes nothing else, also when the same path has been
    requested before: a second call for the same location issues the same
    path a second time. *)
Theorem fetchContent_request_path (location : Location) (w : World) :
  let '(fetchPromise, w1) := fetchContent location w in
  let '(fetchPromise', w2) := fetchContent location w1 in
  requests w1 = requests w ++ ["/rsc" +:+ location] ∧
  length (requests w1) = S (length (requests w)) ∧
  requests w2 = requests w ++ ["/rsc" +:+ location; "/rsc" +:+ location] ∧
  fetchPromise ≠ fetchPromise' ∧
  committed w1 = committed w ∧ pipelines w1 = pipelines w ∧
  latestNav w1 = latestNav w.
Proof.
  cbn. rewrite !length_app. cbn. repeat split; try done; try lia.
  by rewrite <- app_assoc.
Qed.

(** Settling a fetch never issues a request. *)
Lemma settle_requests (p : nat) (o : NetworkOutcome) (w : World) :
  requests (settle p o w) = requests w.
Proof. destruct (settle_cases p o w); try done. by destruct replace. Qed.

Lemma settle_received_direct (l : Location) (o : NetworkOutcome) (w : World) :
  let '(fetchPromise, w1) := fetchContent l w in
  let '(content, w2) := createFromFetch fetchPromise PopState l w1 in
  received <$> pipelines (settle fetchPromise o w2) !! content =
  Some (Some (match o with
              | NetworkFailure reason => Rejected reason
              | HttpResponse response => Fulfilled (Some response)
              end)).
Proof.
  cbn. unfold settle. cbn. rewrite lookup_insert_eq. cbn.
  destruct o; cbn; by rewrite lookup_insert_eq.
Qed.

(** C6, as the code has it. The handle of [fetchContent], given to
    [createFromFetch] as it is, is rejected when the request suffers a
    network failure and is fulfilled with the response whenever one
    arrives, whatever its status; settling it issues no further request. *)
Theorem fetchContent_failure_contract (location : Location) (o : NetworkOutcome) (w : World) :
  let '(fetchPromise, w1) := fetchContent location w in
  let '(content, w2) := createFromFetch fetchPromise PopState location w1 in
  let w3 := settle fetchPromise o w2 in
  received <$> pipelines w3 !! content =
    Some (Some (match o with
                | NetworkFailure reason => Rejected reason
                | HttpResponse response => Fulfilled (Some response)
                end)) ∧
  requests w3 = requests w ++ ["/rsc" +:+ location].
Proof.
  pose proof (settle_received_direct location o w) as Hr.
  cbn in *. split; [exact Hr|]. by rewrite settle_requests.
Qed.

(** C6, as the spec states it, fails: a response with status 404 is not a
    success, and the handle is fulfilled with it. *)
Lemma fetchContent_not_found_fulfils :
  ¬ (∀ (location : Location) (o : NetworkOutcome) (w : World),
       match o with
       | NetworkFailure _ => True
       | HttpResponse response => ok response = false
       end →
       let '(fetchPromise, w1) := fetchContent location w in
       let '(content, w2) := createFromFetch fetchPromise PopState location w1 in
       ∃ reason,
         received <$> pipelines (settle fetchPromise o w2) !! content =
         Some (Some (Rejected reason))).
Proof.
  intros H.
  specialize (H "/ships" (HttpResponse {| status := 404; body := "Not Found" |})
                (initial_world {| WindowHistory.entries := ["/"];
                                  WindowHistory.index := 0 |}) eq_refl).
  destruct H as [reason H]. vm_compute in H. discriminate H.
Qed.

(** ** Committing a navigation *)

(** The navigation that [navigate] has just started, settling before
    anything else happens. *)
Lemma settle_after_navigate (l : Location) (options : option NavigateOptions)
    (o : NetworkOutcome) (w : World) :
  settle (length (requests w)) o (navigate l options w) =
  let w1 := navigate l options w in
  let thisNav := {| sym_id := symbols w; sym_description := "Nav for " +:+ l |} in
  let pl := {| destination := l; origin := Navigate thisNav (replace_of options);
               received := None |} in
  match o with
  | NetworkFailure reason => deliver (length (requests w)) pl (Rejected reason) w1
  | HttpResponse response =>
      deliver (length (requests w)) pl (Fulfilled (Some response))
        (if replace_of options then replaceState l w1 else pushState l w1)
  end.
Proof.
  rewrite navigate_unfold. unfold settle. cbn. rewrite lookup_insert_eq. cbn.
  destruct o as [reason|response]; cbn; [done|].
  unfold onFulfilled. cbn. rewrite same_symbol_refl. cbn.
  by destruct (replace_of options).
Qed.

(** C8. Without options, and with options that leave [replace] out,
    [navigate] pushes.  When the navigation to a [canonical] location
    commits, replace mode writes the destination over the current entry and leaves the number of entries
    and the position as they were; push mode keeps the entries up to the
    current one, puts a new entry for the destination after them and moves
    to it. *)
Theorem navigate_history_mode (l : Location) (options : option NavigateOptions)
    (response : Response) (w : World) :
  WindowHistory.wf (history w) → canonical l = true →
  let before := history w in
  let after :=
    history (settle (length (requests w)) (HttpResponse response)
               (navigate l options w)) in
  replace_of None = false ∧
  replace_of (Some {| opt_replace := None |}) = false ∧
  if replace_of options then
    length (WindowHistory.entries after) = length (WindowHistory.entries before) ∧
    WindowHistory.index after = WindowHistory.index before ∧
    WindowHistory.entries after !! WindowHistory.index before = Some l ∧
    ∀ i, i ≠ WindowHistory.index before →
         WindowHistory.entries after !! i = WindowHistory.entries before !! i
  else
    length (WindowHistory.entries after) = S (S (WindowHistory.index before)) ∧
    WindowHistory.index after = S (WindowHistory.index before) ∧
    WindowHistory.entries after !! S (WindowHistory.index before) = Some l ∧
    ∀ i, i ≤ WindowHistory.index before →
         WindowHistory.entries after !! i = WindowHistory.entries before !! i.
Proof.
  intros Hwf _ before after. subst after. rewrite settle_after_navigate.
  split; [done|]. split; [done|]. unfold WindowHistory.wf in Hwf.
  destruct (replace_of options); cbn; fold before.
  - rewrite length_insert. split; [done|]. split; [done|]. split.
    + by apply list_lookup_insert_eq.
    + intros i Hi. by apply list_lookup_insert_ne.
  - assert (length (take (S (WindowHistory.index before))
                      (WindowHistory.entries before))
            = S (WindowHistory.index before)) as Hlen
      by (rewrite length_take; subst before; lia).
    rewrite length_app, Hlen. split; [cbn; lia|]. split; [done|]. split.
    + rewrite lookup_app_r; rewrite Hlen; [|lia]. by rewrite Nat.sub_diag.
    + intros i Hi. rewrite lookup_app_l; [|rewrite Hlen; lia].
      apply lookup_take_lt. lia.
Qed.

Lemma navigate_history_mode_witness :
  let w := initial_world {| WindowHistory.entries := ["/"; "/ships"];
                            WindowHistory.index := 1 |} in
  let after :=
    history (settle (length (requests w))
               (HttpResponse {| status := 200; body := "x" |})
               (navigate "/x" (Some {| opt_replace := Some true |}) w)) in
  WindowHistory.entries after = ["/"; "/x"] ∧ WindowHistory.index after = 1 ∧
  WindowHistory.entries after !! 1 = Some "/x".
Proof.
  cbv zeta. split; [reflexivity|]. split; [reflexivity|].
  pose proof (navigate_history_mode "/x" (Some {| opt_replace := Some true |})
                {| status := 200; body := "x" |}
                (initial_world {| WindowHistory.entries := ["/"; "/ships"];
                                  WindowHistory.index := 1 |})) as H.
  cbv zeta in H. unfold WindowHistory.wf in H.
  exact (proj1 (proj2 (proj2 (proj2 (proj2 (H ltac:(cbn; lia) eq_refl)))))).
Defined.

(** ** When the history is mutated *)

Lemma settle_history_calls (p : nat) (o : NetworkOutcome) (w : World) :
  history_calls (settle p o w) ≠ history_calls w →
  ∃ response pl thisNav replace,
    o = HttpResponse response ∧
    pipelines w !! p = Some pl ∧ received pl = None ∧
    origin pl = Navigate thisNav replace ∧
    differs_from_current thisNav (latestNav w) = false ∧
    history_calls (settle p o w) =
      history_calls w ++ [history_call replace (destination pl)].
Proof.
  intros Hneq. destruct (settle_cases p o w); try done.
  exists response, pl, thisNav, replace. repeat split; try done.
  by destruct replace.
Qed.

Lemma settle_rejected_inert (p : nat) (reason : string) (w : World) :
  history (settle p (NetworkFailure reason) w) = history w ∧
  history_calls (settle p (NetworkFailure reason) w) = history_calls w.
Proof. by destruct (settle_cases p (NetworkFailure reason) w). Qed.

(** What a superseded navigation can change when it settles: what its own
    pipeline received, nothing else. *)
Lemma settle_superseded (p : nat) (o : NetworkOutcome) (w : World) :
  superseded w p →
  ∃ r, settle p o w = w ∨
       ∃ pl, pipelines w !! p = Some pl ∧ received pl = None ∧
             settle p o w = deliver p pl r w ∧
             (r = Fulfilled None ∨ ∃ reason, r = Rejected reason).
Proof.
  intros (pl0 & thisNav0 & replace0 & Hp & Ho & Hd).
  settle_inversion p o w; simplify_eq.
  - exists (Fulfilled None). by left.
  - exists (Rejected reason). right. exists pl0. eauto 10.
  - destruct Hor; congruence.
  - exists (Fulfilled None). right. exists pl0. eauto 10.
  - congruence.
Qed.

Lemma settle_superseded_inert (p : nat) (o : NetworkOutcome) (w : World) :
  superseded w p →
  history (settle p o w) = history w ∧
  history_calls (settle p o w) = history_calls w ∧
  nextLocation (settle p o w) = nextLocation w ∧
  contentPromise (settle p o w) = contentPromise w ∧
  latestNav (settle p o w) = latestNav w ∧
  requests (settle p o w) = requests w ∧
  symbols (settle p o w) = symbols w ∧
  ∀ q, q ≠ p → pipelines (settle p o w) !! q = pipelines w !! q.
Proof.
  intros Hs. destruct (settle_superseded p o w Hs) as [r [->|(pl & _ & _ & -> & _)]].
  - done.
  - cbn. repeat split. intros q Hq. by rewrite lookup_insert_ne.
Qed.

(** C4, as the code has it. A step of the program calls [pushState] or
    [replaceState] only when it is the settlement of a fetch with a
    response, of whatever status, for a pipeline that [navigate] made,
    that had not settled before and whose token is the latest at that
    moment; it then makes the one call of that navigation.  A fetch that
    rejects, and a navigation whose token is no longer the latest, mutate
    nothing. *)
Theorem no_premature_history_mutation (w : World) :
  (∀ e, history_calls (step w e) ≠ history_calls w →
     ∃ p response pl thisNav replace,
       e = FetchSettles p (HttpResponse response) ∧
       pipelines w !! p = Some pl ∧ received pl = None ∧
       origin pl = Navigate thisNav replace ∧
       differs_from_current thisNav (latestNav w) = false ∧
       history_calls (step w e) =
         history_calls w ++ [history_call replace (destination pl)]) ∧
  (∀ p reason,
     history (step w (FetchSettles p (NetworkFailure reason))) = history w ∧
     history_calls (step w (FetchSettles p (NetworkFailure reason))) =
       history_calls w) ∧
  (∀ p o, superseded w p →
     history (step w (FetchSettles p o)) = history w ∧
     history_calls (step w (FetchSettles p o)) = history_calls w).
Proof.
  split; [|split].
  - intros [l options|delta|p o] Hneq; cbn in Hneq.
    + done.
    + by destruct (WindowHistory.traverse delta (history w)).
    + destruct (settle_history_calls p o w Hneq)
        as (response & pl & thisNav & replace & -> & H).
      exists p, response, pl, thisNav, replace. by split.
  - intros p reason. apply settle_rejected_inert.
  - intros p o Hs. cbn.
    destruct (settle_superseded_inert p o w Hs) as (? & ? & _). done.
Qed.

Lemma no_premature_history_mutation_witness :
  let w := run (initial_world {| WindowHistory.entries := ["/"];
                                 WindowHistory.index := 0 |})
               [FetchSettles 0 (HttpResponse {| status := 200; body := "home" |});
                Navigates "/a" None] in
  let e := FetchSettles 1 (HttpResponse {| status := 200; body := "a" |}) in
  history_calls (step w e) = [PushState "/a"] ∧
  ∃ p response pl thisNav replace,
    e = FetchSettles p (HttpResponse response) ∧
    pipelines w !! p = Some pl ∧ received pl = None ∧
    origin pl = Navigate thisNav replace ∧
    differs_from_current thisNav (latestNav w) = false ∧
    history_calls (step w e) =
      history_calls w ++ [history_call replace (destination pl)].
Proof.
  cbv zeta. split; [reflexivity|].
  apply (proj1 (no_premature_history_mutation _)). vm_compute. discriminate.
Defined.

(** C4, as the spec states it, fails: a response with status 500 is not a
    success, and the navigation it answers pushes its destination. *)
Lemma history_pushed_on_server_error :
  ¬ (∀ (w : World) (e : Event),
       history_calls (step w e) ≠ history_calls w →
       ∃ p response pl thisNav replace,
         e = FetchSettles p (HttpResponse response) ∧ ok response = true ∧
         pipelines w !! p = Some pl ∧ origin pl = Navigate thisNav replace ∧
         differs_from_current thisNav (latestNav w) = false).
Proof.
  intros H.
  destruct (H (run (initial_world list_after_home)
                 [FetchSettles 0 (loaded "list"); Navigates "/a" None])
              (FetchSettles 1 (HttpResponse {| status := 500;
                                               body := "Internal Server Error" |})))
    as (p & response & pl & thisNav & replace & He & Hok & _).
  - vm_compute. discriminate.
  - injection He as _ <-. vm_compute in Hok. discriminate Hok.
Qed.

(** ** Superseded navigations *)

Section Superseded.

Context {Tree : Type} (decode : Settled (option Response) → option (Settled Tree)).

Lemma Root_same_content (w w' : World) :
  contentPromise w' = contentPromise w →
  pipelines w' !! contentPromise w = pipelines w !! contentPromise w →
  Root decode w' = Root decode w.
Proof. intros Hc Hp. unfold Root. by rewrite Hc, Hp. Qed.

Lemma committed_same_content (w w' : World) :
  history w' = history w → history_calls w' = history_calls w →
  nextLocation w' = nextLocation w → contentPromise w' = contentPromise w →
  pipelines w' !! contentPromise w = pipelines w !! contentPromise w →
  committed w' = committed w.
Proof. intros Hh Hc Hn Hp Hl. unfold committed. by rewrite Hh, Hc, Hn, Hp, Hl. Qed.

Lemma settle_superseded_quiet (w : World) (p : nat) (o : NetworkOutcome) :
  invariant w → superseded w p →
  committed (settle p o w) = committed w ∧
  contentPromise (settle p o w) = contentPromise w ∧
  latestNav (settle p o w) = latestNav w ∧
  requests (settle p o w) = requests w ∧
  Root decode (settle p o w) = Root decode w.
Proof.
  intros Hinv Hs.
  pose proof (superseded_older w p Hinv Hs) as Hlt.
  destruct (settle_superseded_inert p o w Hs)
    as (Hh & Hc & Hn & Hp & Hl & Hq & _ & Hpl).
  specialize (Hpl (contentPromise w) ltac:(lia)).
  split; [by apply committed_same_content|].
  repeat split; try done. by apply Root_same_content.
Qed.

(** C3. When a navigation whose token is no longer the latest settles,
    with a response or with a failure, nothing of it shows: the history
    and the calls made on it, [nextLocation], the installed
    [contentPromise] and what it received, and [latestNav] are as before,
    no request is issued again, and the render of [Root] is the same, so
    that nothing is thrown to the error boundary that was not thrown
    before. *)
Theorem superseded_silent (w : World) (p : nat) (o : NetworkOutcome) :
  reachable w → superseded w p →
  let w' := settle p o w in
  committed w' = committed w ∧
  contentPromise w' = contentPromise w ∧
  latestNav w' = latestNav w ∧
  requests w' = requests w ∧
  Root decode w' = Root decode w.
Proof.
  intros Hr Hs. cbv zeta.
  apply settle_superseded_quiet; [by apply reachable_invariant | done].
Qed.

Lemma contentPromise_mono_step (w : World) (e : Event) :
  invariant w → contentPromise w ≤ contentPromise (step w e).
Proof.
  intros [Hc _ _ _ _]. destruct e as [l options|delta|p o]; cbn.
  - lia.
  - destruct (WindowHistory.traverse delta (history w)); cbn; lia.
  - destruct (settle_cases p o w); cbn; try lia. destruct replace; cbn; lia.
Qed.

Lemma contentPromise_mono_run (w : World) (es : list Event) :
  invariant w → contentPromise w ≤ contentPromise (run w es).
Proof.
  revert w. induction es as [|e es IH]; intros w Hinv; [done|]. cbn.
  pose proof (contentPromise_mono_step w e Hinv).
  pose proof (IH (step w e) (invariant_step w e Hinv)). unfold run in *. lia.
Qed.

(** C10. When the fetch of a navigation that is still in flight fulfils
    and its token is no longer the latest, the [.then] callback returns
    [undefined], which is what the navigation's [createFromFetch] receives
    in place of the response.  A newer content promise is installed at
    that moment, and whatever happens afterwards the installed one stays
    newer: the render never reads the superseded one. *)
Theorem superseded_receives_undefined (w : World) (p : nat) (pl : Pipeline)
    (response : Response) :
  reachable w → superseded w p →
  pipelines w !! p = Some pl → received pl = None →
  let w' := settle p (HttpResponse response) w in
  received <$> pipelines w' !! p = Some (Some (Fulfilled None)) ∧
  p < contentPromise w' ∧
  Root decode w' = Root decode w ∧
  ∀ es, p < contentPromise (run w' es).
Proof.
  intros Hr Hs Hpl Hrec w'.
  pose proof (reachable_invariant w Hr) as Hinv.
  pose proof (superseded_older w p Hinv Hs) as Hlt.
  destruct (settle_superseded_quiet w p (HttpResponse response) Hinv Hs)
    as (_ & Hc & _ & _ & HRoot). fold w' in Hc, HRoot.
  assert (received <$> pipelines w' !! p = Some (Some (Fulfilled None))) as Hund.
  { subst w'. destruct Hs as (pl0 & thisNav & replace & Hp0 & Ho & Hd).
    rewrite Hpl in Hp0. injection Hp0 as <-.
    unfold settle. rewrite Hpl, Hrec. cbn. rewrite Ho.
    unfold onFulfilled. rewrite Hd. cbn. by rewrite lookup_insert_eq. }
  split; [done|]. split; [lia|]. split; [done|].
  intros es.
  pose proof (contentPromise_mono_run w' es (invariant_settle _ _ _ Hinv)). lia.
Qed.

End Superseded.

Lemma superseded_silent_witness :
  let w := run (initial_world list_after_home)
               [FetchSettles 0 (loaded "list"); Navigates "/a" None;
                Navigates "/b" None] in
  superseded w 1 ∧
  committed (settle 1 (NetworkFailure "offline") w) = committed w ∧
  Root body_decoder (settle 1 (NetworkFailure "offline") w) = Root body_decoder w.
Proof.
  cbv zeta.
  assert (superseded
            (run (initial_world list_after_home)
               [FetchSettles 0 (loaded "list"); Navigates "/a" None;
                Navigates "/b" None]) 1) as Hs.
  { eexists _, _, _. split; [vm_compute; reflexivity|]. split; reflexivity. }
  split; [exact Hs|].
  refine (let H := superseded_silent body_decoder _ 1 (NetworkFailure "offline")
                     _ Hs in conj (proj1 H) (proj2 (proj2 (proj2 (proj2 H))))).
  exists list_after_home, [FetchSettles 0 (loaded "list"); Navigates "/a" None;
                            Navigates "/b" None].
  split; [unfold WindowHistory.wf; cbn; lia | reflexivity].
Defined.

Lemma superseded_receives_undefined_witness :
  let w := run (initial_world list_after_home)
               [FetchSettles 0 (loaded "list"); Navigates "/a" None;
                Navigates "/b" None] in
  let w' := settle 1 (loaded "a") w in
  received <$> pipelines w' !! 1 = Some (Some (Fulfilled None)) ∧
  contentPromise w' = 2 ∧
  ∀ es, 1 < contentPromise (run w' es).
Proof.
  cbv zeta.
  assert (reachable
            (run (initial_world list_after_home)
               [FetchSettles 0 (loaded "list"); Navigates "/a" None;
                Navigates "/b" None])) as Hr.
  { exists list_after_home, [FetchSettles 0 (loaded "list"); Navigates "/a" None;
                              Navigates "/b" None].
    split; [unfold WindowHistory.wf; cbn; lia | reflexivity]. }
  assert (superseded
            (run (initial_world list_after_home)
               [FetchSettles 0 (loaded "list"); Navigates "/a" None;
                Navigates "/b" None]) 1) as Hs.
  { eexists _, _, _. split; [vm_compute; reflexivity|]. split; reflexivity. }
  pose proof (superseded_receives_undefined body_decoder _ 1
                {| destination := "/a";
                   origin := Navigate {| sym_id := 0;
                                         sym_description := "Nav for /a" |} false;
                   received := None |}
                {| status := 200; body := "a" |} Hr Hs
                ltac:(vm_compute; reflexivity) eq_refl) as H.
  cbv zeta in H.
  split; [exact (proj1 H)|]. split; [reflexivity|].
  exact (proj2 (proj2 (proj2 H))).
Defined.

(** ** Tokens *)

Lemma settle_latestNav (p : nat) (o : NetworkOutcome) (w : World) :
  latestNav (settle p o w) = latestNav w.
Proof. destruct (settle_cases p o w); try done. by destruct replace. Qed.

(** C5, as the code has it. Every call of [navigate] mints a token that
    differs from every token minted before it, held by a pipeline or by
    [latestNav]; that token becomes the latest and belongs to the newest
    pipeline, and the settling of fetches leaves the latest token alone.
    The initial load mints none: [latestNav] starts as [null], so at most
    one token is the latest at any time. *)
Theorem navigate_mints_latest_token (l : Location) (options : option NavigateOptions)
    (w : World) :
  reachable w →
  let w' := navigate l options w in
  ∃ thisNav,
    latestNav w' = Some thisNav ∧
    origin <$> pipelines w' !! contentPromise w' =
      Some (Navigate thisNav (replace_of options)) ∧
    (∀ p pl t replace,
       pipelines w !! p = Some pl → origin pl = Navigate t replace →
       same_symbol thisNav t = false) ∧
    (∀ t, latestNav w = Some t → same_symbol thisNav t = false) ∧
    (∀ p o, latestNav (settle p o w') = Some thisNav) ∧
    (∀ h, latestNav (initial_world h) = None).
Proof.
  intros Hr w'. destruct (reachable_invariant w Hr) as [Hc Hn Ht Hl Hi].
  exists {| sym_id := symbols w; sym_description := "Nav for " +:+ l |}.
  subst w'. rewrite navigate_unfold. cbn. rewrite lookup_insert_eq.
  split; [done|]. split; [done|]. split; [|split; [|split]].
  - intros p pl t replace Hp Ho. specialize (Ht _ _ _ _ Hp Ho).
    unfold same_symbol. cbn. apply bool_decide_eq_false. lia.
  - intros t Hlat. specialize (Hl _ Hlat).
    unfold same_symbol. cbn. apply bool_decide_eq_false. lia.
  - intros p o. by rewrite settle_latestNav.
  - done.
Qed.

Lemma navigate_mints_latest_token_witness :
  let w := run (initial_world list_after_home)
               [FetchSettles 0 (loaded "list"); Navigates "/a" None] in
  ∃ thisNav,
    latestNav (navigate "/b" None w) = Some thisNav ∧
    ∀ t, latestNav w = Some t → same_symbol thisNav t = false.
Proof.
  cbv zeta.
  destruct (navigate_mints_latest_token "/b" None
              (run (initial_world list_after_home)
                 [FetchSettles 0 (loaded "list"); Navigates "/a" None]))
    as (thisNav & Hlat & _ & _ & Hnew & _).
  - exists list_after_home, [FetchSettles 0 (loaded "list"); Navigates "/a" None].
    split; [unfold WindowHistory.wf; cbn; lia | reflexivity].
  - exists thisNav. split; [exact Hlat | exact Hnew].
Defined.

(** C5, as the spec states it, fails: while the initial load is in flight
    it is the most recently initiated attempt, and no token is the
    latest. *)
Lemma initial_load_mints_no_token :
  ¬ (∀ w, reachable w →
       ∃ thisNav replace,
         latestNav w = Some thisNav ∧
         origin <$> pipelines w !! contentPromise w =
           Some (Navigate thisNav replace)).
Proof.
  intros H. destruct (H (initial_world list_after_home)) as (t & r & Hlat & _).
  - exists list_after_home, []. split; [unfold WindowHistory.wf; cbn; lia | done].
  - discriminate Hlat.
Qed.

(** ** Back and forward *)

(** What [handlePopState] does, for every state it is called in: it asks
    for the content of the location the browser is at, shows that location
    as next and installs the new content promise; it makes no call on the
    history, and it creates no symbol and leaves [latestNav] as it was. *)
Lemma handlePopState_effect (w : World) :
  let w' := handlePopState w in
  requests w' = requests w ++ ["/rsc" +:+ getGlobalLocation (history w)] ∧
  nextLocation w' = getGlobalLocation (history w) ∧
  origin <$> pipelines w' !! contentPromise w' = Some PopState ∧
  history w' = history w ∧ history_calls w' = history_calls w ∧
  symbols w' = symbols w ∧ latestNav w' = latestNav w.
Proof. cbn. by rewrite lookup_insert_eq. Qed.

(** C2 at its failing input. The page was loaded at [/list] after
    [/home]; [navigate("/a")] is in flight when the user goes back.
    [handlePopState] fetches [/home] without touching the history, but no
    token is minted: the navigation to [/a] is still the latest, and when
    its fetch fulfils it pushes [/a], so that the address bar is at [/a]
    while the installed content is the one fetched for [/home]. *)
Theorem popstate_does_not_supersede :
  let w0 := run (initial_world list_after_home)
                [FetchSettles 0 (loaded "list"); Navigates "/a" None] in
  let w1 := step w0 (Traverses (-1)) in
  let w2 := step w1 (FetchSettles 1 (loaded "a")) in
  (nextLocation w1 = "/home" ∧
   requests w1 = requests w0 ++ ["/rsc/home"] ∧
   history_calls w1 = [] ∧
   symbols w1 = symbols w0 ∧
   latestNav w1 = latestNav w0) ∧
  (history_calls w2 = [PushState "/a"] ∧
   history w2 = {| WindowHistory.entries := ["/home"; "/a"];
                   WindowHistory.index := 1 |} ∧
   getGlobalLocation (history w2) = "/a" ∧
   nextLocation w2 = "/home" ∧
   c_content (committed w2) = Some ("/home", None)).
Proof. cbv zeta. split; repeat split; vm_compute; reflexivity. Qed.

(** ** Latest wins *)

Lemma alike_refl (q : nat) (w : World) : alike q w w.
Proof. by repeat split. Qed.

Lemma alike_trans (q : nat) (w1 w2 w3 : World) :
  alike q w1 w2 → alike q w2 w3 → alike q w1 w3.
Proof.
  intros (?&?&?&?&?&?) (?&?&?&?&?&?). repeat split; congruence.
Qed.

Lemma alike_committed (w w' : World) :
  alike (contentPromise w) w w' → committed w' = committed w.
Proof.
  intros (Hh & Hc & Hn & _ & Hp & Hq). unfold committed.
  by rewrite Hh, Hc, Hn, Hp, Hq.
Qed.

(** Settling pipeline [q] in two states that are alike at [q] gives two
    states that are alike at [q]. *)
Lemma alike_settle (q : nat) (o : NetworkOutcome) (w w' : World) :
  alike q w w' → alike q (settle q o w) (settle q o w').
Proof.
  intros (Hh & Hc & Hn & Hl & Hp & Hq). unfold settle. rewrite Hq.
  destruct (pipelines w !! q) as [pl|] eqn:Hpl; [|repeat split; congruence].
  destruct (received pl); [repeat split; congruence|].
  destruct o as [reason|response]; cbn.
  { repeat split; cbn; try done. by rewrite !lookup_insert_eq. }
  destruct (origin pl) as [| |thisNav replace].
  1,2: repeat split; cbn; try done; by rewrite !lookup_insert_eq.
  unfold onFulfilled. rewrite Hl.
  destruct (differs_from_current thisNav (latestNav w)).
  { repeat split; cbn; try done. by rewrite !lookup_insert_eq. }
  destruct replace; repeat split; cbn; rewrite ?Hh, ?Hc, ?lookup_insert_eq; done.
Qed.

Lemma settle_origin (p : nat) (o : NetworkOutcome) (w : World) (q : nat) :
  origin <$> pipelines (settle p o w) !! q = origin <$> pipelines w !! q.
Proof.
  settle_inversion p o w; try done.
  all: try destruct replace; cbn.
  all: destruct (decide (q = p)) as [->|Hne];
    [rewrite lookup_insert_eq, Hpl | rewrite lookup_insert_ne]; done.
Qed.

(** Whether a navigation is superseded depends on its token and on the
    latest token, and no settlement changes either. *)
Lemma superseded_settle (p : nat) (o : NetworkOutcome) (w : World) (q : nat) :
  superseded w q → superseded (settle p o w) q.
Proof.
  intros (pl & thisNav & replace & Hq & Ho & Hd).
  pose proof (settle_origin p o w q) as Hor. rewrite Hq in Hor. cbn in Hor.
  destruct (pipelines (settle p o w) !! q) as [pl'|] eqn:Hq'; [|done].
  exists pl', thisNav, replace. rewrite settle_latestNav.
  cbn in Hor. split; [done|]. split; congruence.
Qed.

Lemma alike_settle_superseded (q p : nat) (o : NetworkOutcome) (w : World) :
  p ≠ q → superseded w p → alike q w (settle p o w).
Proof.
  intros Hne Hs.
  destruct (settle_superseded_inert p o w Hs)
    as (Hh & Hc & Hn & Hp & Hl & _ & _ & Hpl).
  repeat split; try done. by apply Hpl.
Qed.

(** A run of settlements of superseded navigations shows nothing. *)
Lemma run_superseded (q : nat) (ss : list (nat * NetworkOutcome)) (w : World) :
  (∀ s, s ∈ ss → s.1 ≠ q ∧ superseded w s.1) →
  alike q w (run w (settlements ss)) ∧
  ∀ p, superseded w p → superseded (run w (settlements ss)) p.
Proof.
  revert w. induction ss as [|[p o] ss IH]; intros w Hall; [by split; [apply alike_refl|]|].
  cbn. destruct (Hall (p, o)) as [Hne Hs]; [by left|]. cbn in Hne, Hs.
  destruct (IH (settle p o w)) as [Ha Hsup].
  { intros s Hin. destruct (Hall s) as [? ?]; [by right|].
    split; [done|]. by apply superseded_settle. }
  split.
  - eapply alike_trans; [by apply alike_settle_superseded|]. exact Ha.
  - intros p' Hp'. by apply Hsup, superseded_settle.
Qed.

(** After a run of [navigate] calls: the history is untouched, and every
    fetch the run started belongs to a pipeline of [navigate] whose token
    is one of the symbols created so far. *)
Lemma run_navigations (ns : list (Location * option NavigateOptions)) (w : World) :
  let w' := run w (navigations ns) in
  history w' = history w ∧ history_calls w' = history_calls w ∧
  length (requests w') = length (requests w) + length ns ∧
  ∀ p, length (requests w) ≤ p < length (requests w) + length ns →
       ∃ pl thisNav replace,
         pipelines w' !! p = Some pl ∧ origin pl = Navigate thisNav replace ∧
         sym_id thisNav < symbols w'.
Proof.
  induction ns as [|[l options] ns IH] using rev_ind; cbn.
  { repeat split; try lia. }
  unfold navigations in *. rewrite map_app. cbn [map fst snd].
  rewrite run_snoc. cbn [step].
  destruct IH as (Hh & Hc & Hlen & Hpl). rewrite length_app. cbn [length].
  set (w' := run w (map _ ns)) in *.
  rewrite navigate_unfold. cbn. rewrite length_app. cbn.
  split; [done|]. split; [done|]. split; [lia|].
  intros p Hp. destruct (decide (p = length (requests w'))) as [->|Hne].
  - rewrite lookup_insert_eq. eexists _, _, _. split; [done|]. split; [done|].
    cbn. lia.
  - rewrite lookup_insert_ne; [|done].
    destruct (Hpl p) as (pl & thisNav & replace & Hl & Ho & Hlt); [lia|].
    exists pl, thisNav, replace. split; [done|]. split; [done|]. lia.
Qed.

(** The committed state after the navigation just started has settled. *)
Lemma committed_settle_navigate (l : Location) (options : option NavigateOptions)
    (o : NetworkOutcome) (w : World) :
  committed (settle (length (requests w)) o (navigate l options w)) =
  match o with
  | NetworkFailure reason =>
      {| c_history := history w; c_history_calls := history_calls w;
         c_nextLocation := l; c_content := Some (l, Some (Rejected reason)) |}
  | HttpResponse response =>
      {| c_history :=
           if replace_of options then WindowHistory.replaceState l (history w)
           else WindowHistory.pushState l (history w);
         c_history_calls :=
           history_calls w ++ [history_call (replace_of options) l];
         c_nextLocation := l;
         c_content := Some (l, Some (Fulfilled (Some response))) |}
  end.
Proof.
  rewrite settle_after_navigate. cbv zeta. unfold committed.
  destruct o as [reason|response].
  - cbn. by rewrite lookup_insert_eq.
  - destruct (replace_of options); cbn; by rewrite lookup_insert_eq.
Qed.

(** C1. Let [navigate] be called for [earlier] and then for [l], before
    any of these fetches settles, and let the fetches settle afterwards,
    each once, in any order and with any outcome.  The committed state at
    the end (the history and the calls made on it, [nextLocation], and the
    content installed for the render) is the one that the last call alone
    produces, settling with the same outcome [o]: nothing of the earlier
    navigations is left. *)
Theorem latest_wins (w : World) (earlier : list (Location * option NavigateOptions))
    (l : Location) (options : option NavigateOptions)
    (ss : list (nat * NetworkOutcome)) (o : NetworkOutcome) :
  ss.*1 ≡ₚ seq (length (requests w)) (S (length earlier)) →
  (length (requests w) + length earlier, o) ∈ ss →
  committed (run w (navigations (earlier ++ [(l, options)]) ++ settlements ss)) =
  committed (run w [Navigates l options; FetchSettles (length (requests w)) o]).
Proof.
  intros Hperm Hin.
  destruct (run_navigations earlier w) as (Hh & Hc & Hlen & Hpl).
  set (w0 := run w (navigations earlier)) in *.
  set (q := length (requests w) + length earlier) in *.
  assert (run w (navigations (earlier ++ [(l, options)])) = navigate l options w0) as Hnav.
  { unfold navigations. rewrite map_app. cbn. by rewrite run_snoc. }
  rewrite run_app, Hnav.
  change (run w [Navigates l options; FetchSettles (length (requests w)) o])
    with (settle (length (requests w)) o (navigate l options w)).
  set (w1 := navigate l options w0).
  (* every earlier navigation is superseded in [w1] *)
  assert (∀ s, s ∈ ss → s.1 ≠ q → s.1 ≠ q ∧ superseded w1 s.1) as Hsup.
  { intros [p o'] Hs Hne. cbn [fst snd] in Hne |- *. split; [done|].
    assert (p ∈ seq (length (requests w)) (S (length earlier))) as Hp.
    { rewrite <- Hperm. apply list_elem_of_fmap. by exists (p, o'). }
    apply elem_of_seq in Hp.
    destruct (Hpl p) as (pl & thisNav & replace & Hl & Ho & Hlt); [lia|].
    exists pl, thisNav, replace. subst w1. rewrite navigate_unfold. cbn.
    rewrite lookup_insert_ne; [|lia]. split; [done|]. split; [done|].
    by apply differs_lt. }
  (* the settlements before and after the one of the last navigation *)
  assert (NoDup ss.*1) as Hnd by (rewrite Hperm; apply NoDup_seq).
  apply list_elem_of_split in Hin as (ss1 & ss2 & ->).
  rewrite fmap_app, fmap_cons in Hnd. cbn in Hnd.
  apply NoDup_app in Hnd as (_ & Hdis & Hnd2).
  apply NoDup_cons in Hnd2 as (Hnot2 & _).
  assert (∀ s, s ∈ ss1 → s.1 ≠ q) as Hne1.
  { intros s Hs Heq. apply (Hdis q); [|by left].
    rewrite <- Heq. apply list_elem_of_fmap. by exists s. }
  assert (∀ s, s ∈ ss2 → s.1 ≠ q) as Hne2.
  { intros s Hs Heq. apply Hnot2. rewrite <- Heq.
    apply list_elem_of_fmap. by exists s. }
  unfold settlements. rewrite map_app. cbn [map fst snd].
  rewrite run_app, run_cons. cbn [step].
  fold (settlements ss1) (settlements ss2).
  destruct (run_superseded q ss1 w1) as [Ha1 Hs1].
  { intros s Hs. apply Hsup; [|by apply Hne1].
    apply elem_of_app. by left. }
  set (wa := run w1 (settlements ss1)) in *.
  destruct (run_superseded q ss2 (settle q o wa)) as [Ha2 _].
  { intros s Hs. split; [by apply Hne2|].
    apply superseded_settle, Hs1, Hsup; [|by apply Hne2].
    apply elem_of_app. right. by right. }
  assert (alike q (settle q o w1) (run (settle q o wa) (settlements ss2))) as Ha.
  { eapply alike_trans; [|exact Ha2]. by apply alike_settle. }
  assert (contentPromise (settle q o w1) = q) as Hcontent.
  { subst w1 q. rewrite <- Hlen. rewrite settle_after_navigate. cbv zeta.
    destruct o; [done|]. by destruct (replace_of options). }
  rewrite <- Hcontent in Ha at 1. apply alike_committed in Ha. rewrite Ha.
  subst w1 q. rewrite <- Hlen. rewrite !committed_settle_navigate.
  by rewrite Hh, Hc.
Qed.

Lemma latest_wins_witness :
  let w := run (initial_world list_after_home) [FetchSettles 0 (loaded "list")] in
  committed (run w (navigations [("/a", None); ("/b", None)] ++
                    settlements [(1, loaded "A"); (2, loaded "B")])) =
  committed (run w [Navigates "/b" None; FetchSettles 1 (loaded "B")]) ∧
  history_calls (run w (navigations [("/a", None); ("/b", None)] ++
                        settlements [(1, loaded "A"); (2, loaded "B")])) =
  [PushState "/b"].
Proof.
  cbv zeta. split; [|reflexivity].
  apply (latest_wins
           (run (initial_world list_after_home) [FetchSettles 0 (loaded "list")])
           [("/a", None)] "/b" None
           [(1, loaded "A"); (2, loaded "B")] (loaded "B")).
  - reflexivity.
  - apply list_elem_of_In. right. left. reflexivity.
Defined.

(** ** What settling does to the pipelines *)

Lemma settle_nextLocation (p : nat) (o : NetworkOutcome) (w : World) :
  nextLocation (settle p o w) = nextLocation w.
Proof. destruct (settle_cases p o w); try done. by destruct replace. Qed.

Lemma settle_contentPromise (p : nat) (o : NetworkOutcome) (w : World) :
  contentPromise (settle p o w) = contentPromise w.
Proof. destruct (settle_cases p o w); try done. by destruct replace. Qed.

Lemma settle_symbols (p : nat) (o : NetworkOutcome) (w : World) :
  symbols (settle p o w) = symbols w.
Proof. destruct (settle_cases p o w); try done. by destruct replace. Qed.

(** A settlement keeps every pipeline, with its destination and origin,
    and keeps what a pipeline had received; it adds no pipeline. *)
Lemma settle_lookup (p : nat) (o : NetworkOutcome) (w : World) (q : nat) :
  match pipelines w !! q, pipelines (settle p o w) !! q with
  | Some pl, Some pl' =>
      destination pl' = destination pl ∧ origin pl' = origin pl ∧
      (received pl' = received pl ∨ q = p ∧ received pl = None)
  | None, None => True
  | _, _ => False
  end.
Proof.
  settle_inversion p o w.
  1,2: destruct (pipelines w !! q); auto.
  all: try destruct replace; cbn.
  all: destruct (decide (q = p)) as [->|Hne];
    [rewrite lookup_insert_eq, Hpl; cbn; auto
    |rewrite lookup_insert_ne by done; destruct (pipelines w !! q); auto].
Qed.

Lemma settle_lookup_Some (p : nat) (o : NetworkOutcome) (w : World) (q : nat) (pl' : Pipeline) :
  pipelines (settle p o w) !! q = Some pl' →
  ∃ pl, pipelines w !! q = Some pl ∧
        destination pl' = destination pl ∧ origin pl' = origin pl ∧
        (received pl' = received pl ∨ q = p ∧ received pl = None).
Proof.
  intros Hq. pose proof (settle_lookup p o w q) as H. rewrite Hq in H.
  destruct (pipelines w !! q) as [pl|]; [|done]. by exists pl.
Qed.

Lemma settle_lookup_keep (p : nat) (o : NetworkOutcome) (w : World) (q : nat) (pl : Pipeline) :
  pipelines w !! q = Some pl →
  ∃ pl', pipelines (settle p o w) !! q = Some pl' ∧
         destination pl' = destination pl ∧ origin pl' = origin pl ∧
         (received pl' = received pl ∨ q = p ∧ received pl = None).
Proof.
  intros Hq. pose proof (settle_lookup p o w q) as H. rewrite Hq in H.
  destruct (pipelines (settle p o w) !! q) as [pl'|]; [|done]. by exists pl'.
Qed.

(** ** Once superseded, always superseded *)

Lemma superseded_navigate (l : Location) (options : option NavigateOptions)
    (w : World) (p : nat) :
  invariant w → coherent w → superseded w p → superseded (navigate l options w) p.
Proof.
  intros Hinv Hcoh (pl & thisNav & replace & Hp & Ho & _).
  exists pl, thisNav, replace. rewrite navigate_unfold. cbn.
  assert (p < length (requests w)) as Hlt by (by apply (coh_keys w Hcoh); exists pl).
  rewrite lookup_insert_ne by lia. split; [done|]. split; [done|].
  apply differs_lt. cbn. by apply (inv_tokens w Hinv p pl thisNav replace).
Qed.

Lemma superseded_handlePopState (w : World) (p : nat) :
  coherent w → superseded w p → superseded (handlePopState w) p.
Proof.
  intros Hcoh (pl & thisNav & replace & Hp & Ho & Hd).
  exists pl, thisNav, replace. rewrite handlePopState_unfold. cbn.
  assert (p < length (requests w)) as Hlt by (by apply (coh_keys w Hcoh); exists pl).
  by rewrite lookup_insert_ne by lia.
Qed.

(** ** Coherence is kept *)

Lemma coherent_initial (h : WindowHistory.t) :
  WindowHistory.wf h → coherent (initial_world h).
Proof.
  intros Hwf. split; cbn.
  - done.
  - intros p. destruct (decide (p = 0)) as [->|Hne].
    + rewrite lookup_insert_eq. split; [lia | eauto].
    + rewrite lookup_insert_ne by done. rewrite lookup_empty.
      split; [by intros [? ?] | lia].
  - intros p pl Hp. destruct (decide (p = 0)) as [->|Hne].
    + rewrite lookup_insert_eq in Hp. by simplify_eq.
    + by rewrite lookup_insert_ne in Hp.
  - done.
  - rewrite lookup_insert_eq. eauto.
  - intros p q plp plq tp tq rp rq _ Hp Hop. destruct (decide (p = 0)) as [->|Hne].
    + rewrite lookup_insert_eq in Hp. by simplify_eq.
    + by rewrite lookup_insert_ne in Hp.
  - intros p pl thisNav replace Hp Ho. destruct (decide (p = 0)) as [->|Hne].
    + rewrite lookup_insert_eq in Hp. by simplify_eq.
    + by rewrite lookup_insert_ne in Hp.
  - intros p pl Hp Hr. destruct (decide (p = 0)) as [->|Hne].
    + rewrite lookup_insert_eq in Hp. by simplify_eq.
    + by rewrite lookup_insert_ne in Hp.
  - intros c Hc. by apply elem_of_nil in Hc.
Qed.

Lemma coherent_navigate (l : Location) (options : option NavigateOptions) (w : World) :
  invariant w → coherent w → coherent (navigate l options w).
Proof.
  intros Hinv Hcoh.
  assert (∀ p pl, pipelines w !! p = Some pl → p < length (requests w)) as Hold.
  { intros p pl Hp. apply (coh_keys w Hcoh). by exists pl. }
  split.
  2-7,9: rewrite navigate_unfold; cbn.
  - apply (coh_history w Hcoh).
  - intros p. rewrite length_app. cbn.
    destruct (decide (p = length (requests w))) as [->|Hne].
    + rewrite lookup_insert_eq. split; [lia | eauto].
    + rewrite lookup_insert_ne by done. rewrite (coh_keys w Hcoh). lia.
  - intros p pl Hp. destruct (decide (p = length (requests w))) as [->|Hne].
    + rewrite lookup_insert_eq in Hp. simplify_eq. cbn.
      by rewrite lookup_app_r, Nat.sub_diag.
    + rewrite lookup_insert_ne in Hp by done.
      rewrite lookup_app_l by eauto. by apply (coh_paths w Hcoh).
  - rewrite length_app. cbn. lia.
  - rewrite lookup_insert_eq. eauto.
  - intros p q plp plq tp tq rp rq Hlt Hp Hop Hq Hoq.
    destruct (decide (p = length (requests w))) as [->|Hnp].
    { destruct (decide (q = length (requests w))) as [->|Hnq]; [lia|].
      rewrite lookup_insert_ne in Hq by done. apply Hold in Hq. lia. }
    rewrite lookup_insert_ne in Hp by done.
    destruct (decide (q = length (requests w))) as [->|Hnq].
    + rewrite lookup_insert_eq in Hq. simplify_eq. cbn in Hoq. simplify_eq. cbn.
      by apply (inv_tokens w Hinv p plp tp rp).
    + rewrite lookup_insert_ne in Hq by done.
      by apply (coh_order w Hcoh p q plp plq tp tq rp rq).
  - intros p pl thisNav replace Hp Ho.
    destruct (decide (p = length (requests w))) as [->|Hne].
    + rewrite lookup_insert_eq in Hp. simplify_eq. cbn in Ho. by simplify_eq.
    + rewrite lookup_insert_ne in Hp by done.
      by apply (coh_described w Hcoh p pl thisNav replace).
  - intros c Hc.
    destruct (coh_log w Hcoh c Hc) as (p & pl & t & r & resp & Hp & Ho & Hr & ->).
    exists p, pl, t, r, resp. rewrite lookup_insert_ne; [done|].
    apply Hold in Hp. lia.
  - intros p pl Hp Hr. apply superseded_navigate; try done.
    rewrite navigate_unfold in Hp. cbn in Hp.
    destruct (decide (p = length (requests w))) as [->|Hne].
    + rewrite lookup_insert_eq in Hp. by simplify_eq.
    + rewrite lookup_insert_ne in Hp by done. by apply (coh_undefined w Hcoh p pl).
Qed.

Lemma coherent_handlePopState (w : World) : coherent w → coherent (handlePopState w).
Proof.
  intros Hcoh.
  assert (∀ p pl, pipelines w !! p = Some pl → p < length (requests w)) as Hold.
  { intros p pl Hp. apply (coh_keys w Hcoh). by exists pl. }
  split.
  2-7,9: rewrite handlePopState_unfold; cbn.
  - apply (coh_history w Hcoh).
  - intros p. rewrite length_app. cbn.
    destruct (decide (p = length (requests w))) as [->|Hne].
    + rewrite lookup_insert_eq. split; [lia | eauto].
    + rewrite lookup_insert_ne by done. rewrite (coh_keys w Hcoh). lia.
  - intros p pl Hp. destruct (decide (p = length (requests w))) as [->|Hne].
    + rewrite lookup_insert_eq in Hp. simplify_eq. cbn.
      by rewrite lookup_app_r, Nat.sub_diag.
    + rewrite lookup_insert_ne in Hp by done.
      rewrite lookup_app_l by eauto. by apply (coh_paths w Hcoh).
  - rewrite length_app. cbn. lia.
  - rewrite lookup_insert_eq. eauto.
  - intros p q plp plq tp tq rp rq Hlt Hp Hop Hq Hoq.
    destruct (decide (p = length (requests w))) as [->|Hnp].
    { rewrite lookup_insert_eq in Hp. by simplify_eq. }
    rewrite lookup_insert_ne in Hp by done.
    destruct (decide (q = length (requests w))) as [->|Hnq].
    + rewrite lookup_insert_eq in Hq. by simplify_eq.
    + rewrite lookup_insert_ne in Hq by done.
      by apply (coh_order w Hcoh p q plp plq tp tq rp rq).
  - intros p pl thisNav replace Hp Ho.
    destruct (decide (p = length (requests w))) as [->|Hne].
    + rewrite lookup_insert_eq in Hp. by simplify_eq.
    + rewrite lookup_insert_ne in Hp by done.
      by apply (coh_described w Hcoh p pl thisNav replace).
  - intros c Hc.
    destruct (coh_log w Hcoh c Hc) as (p & pl & t & r & resp & Hp & Ho & Hr & ->).
    exists p, pl, t, r, resp. rewrite lookup_insert_ne; [done|].
    apply Hold in Hp. lia.
  - intros p pl Hp Hr. apply superseded_handlePopState; [done|].
    rewrite handlePopState_unfold in Hp. cbn in Hp.
    destruct (decide (p = length (requests w))) as [->|Hne].
    + rewrite lookup_insert_eq in Hp. by simplify_eq.
    + rewrite lookup_insert_ne in Hp by done. by apply (coh_undefined w Hcoh p pl).
Qed.

Lemma wf_pushState (url : Location) (h : WindowHistory.t) :
  WindowHistory.wf h → WindowHistory.wf (WindowHistory.pushState url h).
Proof.
  unfold WindowHistory.wf, WindowHistory.pushState. intros Hwf.
  cbn [WindowHistory.entries WindowHistory.index].
  rewrite length_app, length_take. cbn [length]. lia.
Qed.

Lemma wf_replaceState (url : Location) (h : WindowHistory.t) :
  WindowHistory.wf h → WindowHistory.wf (WindowHistory.replaceState url h).
Proof. unfold WindowHistory.wf. cbn. by rewrite length_insert. Qed.

Lemma wf_traverse (delta : Z) (h h' : WindowHistory.t) :
  WindowHistory.traverse delta h = Some h' → WindowHistory.wf h'.
Proof.
  unfold WindowHistory.traverse, WindowHistory.wf. intros Ht.
  case_bool_decide as Hin; [|done]. simplify_eq. cbn. lia.
Qed.

Lemma settle_history_wf (p : nat) (o : NetworkOutcome) (w : World) :
  WindowHistory.wf (history w) → WindowHistory.wf (history (settle p o w)).
Proof.
  intros Hwf. settle_inversion p o w; try done.
  destruct replace; cbn; [by apply wf_replaceState | by apply wf_pushState].
Qed.

(** A settlement makes no call on the history, or the one call of the
    navigation it settles, which then has received the response. *)
Lemma settle_calls_cases (p : nat) (o : NetworkOutcome) (w : World) :
  history_calls (settle p o w) = history_calls w ∨
  ∃ pl thisNav replace response,
    pipelines w !! p = Some pl ∧ origin pl = Navigate thisNav replace ∧
    history_calls (settle p o w) =
      history_calls w ++ [history_call replace (destination pl)] ∧
    pipelines (settle p o w) !! p =
      Some {| destination := destination pl; origin := origin pl;
              received := Some (Fulfilled (Some response)) |}.
Proof.
  settle_inversion p o w; try (by left).
  right. exists pl, thisNav, replace, response.
  destruct replace; cbn; by rewrite lookup_insert_eq.
Qed.

(** The pipeline that receives [undefined] is superseded at that moment. *)
Lemma settle_undefined (p : nat) (o : NetworkOutcome) (w : World) (pl0 pl1 : Pipeline) :
  pipelines w !! p = Some pl0 → received pl0 = None →
  pipelines (settle p o w) !! p = Some pl1 →
  received pl1 = Some (Fulfilled None) → superseded w p.
Proof.
  intros Hp0 Hr0 Hp1 Hr1.
  settle_inversion p o w; simplify_eq.
  all: try (exists pl0, thisNav, replace; repeat split; assumption).
  all: revert Hp1; try destruct replace; cbn; rewrite lookup_insert_eq;
    intros Hp1; simplify_eq; cbn in Hr1; congruence.
Qed.

Lemma coherent_settle (p : nat) (o : NetworkOutcome) (w : World) :
  coherent w → coherent (settle p o w).
Proof.
  intros Hcoh. split.
  - apply settle_history_wf, (coh_history w Hcoh).
  - intros q. rewrite settle_requests, <- (coh_keys w Hcoh).
    pose proof (settle_lookup p o w q) as H.
    destruct (pipelines w !! q), (pipelines (settle p o w) !! q); try done;
      split; eauto; by intros [? ?].
  - intros q pl' Hq. rewrite settle_requests.
    destruct (settle_lookup_Some p o w q pl' Hq) as (pl & Hpl & -> & _).
    by apply (coh_paths w Hcoh).
  - rewrite settle_contentPromise, settle_requests. apply (coh_newest w Hcoh).
  - rewrite settle_contentPromise, settle_nextLocation.
    destruct (coh_shown w Hcoh) as (pl & Hpl & Hd).
    destruct (settle_lookup_keep p o w _ pl Hpl) as (pl' & Hpl' & Hd' & _).
    exists pl'. split; [done | congruence].
  - intros q1 q2 pl1 pl2 t1 t2 r1 r2 Hlt Hq1 Ho1 Hq2 Ho2.
    destruct (settle_lookup_Some p o w q1 pl1 Hq1) as (pl1' & H1 & _ & Hor1 & _).
    destruct (settle_lookup_Some p o w q2 pl2 Hq2) as (pl2' & H2 & _ & Hor2 & _).
    rewrite Hor1 in Ho1. rewrite Hor2 in Ho2.
    by apply (coh_order w Hcoh q1 q2 pl1' pl2' t1 t2 r1 r2).
  - intros q pl' thisNav replace Hq Ho.
    destruct (settle_lookup_Some p o w q pl' Hq) as (pl & Hpl & -> & Hor & _).
    rewrite Hor in Ho. by apply (coh_described w Hcoh q pl thisNav replace).
  - intros q pl' Hq Hr. apply superseded_settle.
    destruct (settle_lookup_Some p o w q pl' Hq) as (pl & Hpl & _ & _ & [Hsame|[-> Hnone]]).
    + apply (coh_undefined w Hcoh q pl Hpl). congruence.
    + by apply (settle_undefined p o w pl pl').
  - intros c Hc.
    assert (c ∈ history_calls w →
            ∃ q pl thisNav replace response,
              pipelines (settle p o w) !! q = Some pl ∧
              origin pl = Navigate thisNav replace ∧
              received pl = Some (Fulfilled (Some response)) ∧
              c = history_call replace (destination pl)) as Hold.
    { intros Hin.
      destruct (coh_log w Hcoh c Hin) as (q & pl & t & r & resp & Hq & Ho & Hr & ->).
      destruct (settle_lookup_keep p o w q pl Hq)
        as (pl' & Hq' & Hd' & Ho' & [Hsame|[_ Hnone]]); [|congruence].
      exists q, pl', t, r, resp. rewrite Hd'. repeat split; congruence. }
    destruct (settle_calls_cases p o w)
      as [Heq|(pl & t & r & resp & Hp & Ho & Heq & Hp')];
      rewrite Heq in Hc; [by apply Hold|].
    apply elem_of_app in Hc as [Hin|Hin]; [by apply Hold|].
    apply list_elem_of_singleton in Hin as ->.
    eexists p, _, t, r, resp. split; [exact Hp'|]. by cbn.
Qed.

Lemma coherent_traversed (h : WindowHistory.t) (w : World) :
  WindowHistory.wf h → coherent w → coherent (with_history h (history_calls w) w).
Proof. intros Hwf [? ? ? ? ? ? ? ? ?]. by split. Qed.

Lemma coherent_step (w : World) (e : Event) :
  invariant w → coherent w → coherent (step w e).
Proof.
  intros Hinv Hcoh. destruct e as [l options|delta|p o]; cbn.
  - by apply coherent_navigate.
  - destruct (WindowHistory.traverse delta (history w)) as [h|] eqn:Ht; [|done].
    apply coherent_handlePopState, coherent_traversed; [|done].
    by eapply wf_traverse.
  - by apply coherent_settle.
Qed.

Lemma coherent_run (w : World) (es : list Event) :
  invariant w → coherent w → coherent (run w es).
Proof.
  revert w. induction es as [|e es IH]; intros w Hinv Hcoh; [done|].
  cbn. apply IH; [by apply invariant_step | by apply coherent_step].
Qed.

Lemma reachable_coherent (w : World) : reachable w → coherent w.
Proof.
  intros (h & es & Hwf & ->).
  apply coherent_run; [apply invariant_initial | by apply coherent_initial].
Qed.

(** ** What holds in every reachable state *)

Lemma two_in_flight_reachable : reachable two_in_flight.
Proof.
  exists list_after_home,
    [FetchSettles 0 (loaded "list"); Navigates "/a" None; Navigates "/b" None].
  split; [unfold WindowHistory.wf; cbn; lia | reflexivity].
Qed.

(** X1. In every reachable state the pipelines are exactly the fetches
    made so far, and the request of each one is [/rsc] followed by the
    destination of its pipeline: no fetch is left without its
    [createFromFetch], none is shared. *)
Theorem requests_match_pipelines (w : World) :
  reachable w →
  (∀ p, is_Some (pipelines w !! p) ↔ p < length (requests w)) ∧
  (∀ p pl, pipelines w !! p = Some pl →
           requests w !! p = Some ("/rsc" +:+ destination pl)).
Proof.
  intros Hr. pose proof (reachable_coherent w Hr) as Hcoh.
  split; [apply (coh_keys w Hcoh) | apply (coh_paths w Hcoh)].
Qed.

Lemma requests_match_pipelines_witness :
  is_Some (pipelines two_in_flight !! 2) ∧ ¬ is_Some (pipelines two_in_flight !! 3) ∧
  requests two_in_flight !! 2 = Some "/rsc/b".
Proof.
  destruct (requests_match_pipelines two_in_flight two_in_flight_reachable)
    as [Hkeys Hpaths].
  split; [apply Hkeys; vm_compute; lia|]. split.
  - intros Hsome. apply Hkeys in Hsome. vm_compute in Hsome. lia.
  - apply (Hpaths 2 {| destination := "/b";
                       origin := Navigate {| sym_id := 1;
                                             sym_description := "Nav for /b" |} false;
                       received := None |}).
    vm_compute. reflexivity.
Defined.

(** X3. In every reachable state the tokens of two different pipelines
    of [navigate] differ, the later fetch holding the symbol created
    later, and each token is described as [Nav for] its destination. *)
Theorem tokens_are_distinct (w : World) (p q : nat) (plp plq : Pipeline)
    (tp tq : Symbol) (rp rq : bool) :
  reachable w →
  pipelines w !! p = Some plp → origin plp = Navigate tp rp →
  pipelines w !! q = Some plq → origin plq = Navigate tq rq →
  (p < q → sym_id tp < sym_id tq) ∧
  (p ≠ q → same_symbol tp tq = false) ∧
  sym_description tp = "Nav for " +:+ destination plp.
Proof.
  intros Hr Hp Hop Hq Hoq. pose proof (reachable_coherent w Hr) as Hcoh.
  assert (∀ a b pla plb ta tb ra rb,
            a < b → pipelines w !! a = Some pla → origin pla = Navigate ta ra →
            pipelines w !! b = Some plb → origin plb = Navigate tb rb →
            sym_id ta < sym_id tb) as Hord by apply (coh_order w Hcoh).
  split; [by eauto|]. split.
  - intros Hne. unfold same_symbol. apply bool_decide_eq_false.
    destruct (decide (p < q)) as [Hlt|Hge].
    + pose proof (Hord _ _ _ _ _ _ _ _ Hlt Hp Hop Hq Hoq). lia.
    + assert (q < p) as Hlt by lia.
      pose proof (Hord _ _ _ _ _ _ _ _ Hlt Hq Hoq Hp Hop). lia.
  - by apply (coh_described w Hcoh p plp tp rp).
Qed.

Lemma tokens_are_distinct_witness :
  same_symbol {| sym_id := 0; sym_description := "Nav for /a" |}
              {| sym_id := 1; sym_description := "Nav for /b" |} = false.
Proof.
  refine (proj1 (proj2 (tokens_are_distinct two_in_flight 1 2
            {| destination := "/a";
               origin := Navigate {| sym_id := 0; sym_description := "Nav for /a" |} false;
               received := None |}
            {| destination := "/b";
               origin := Navigate {| sym_id := 1; sym_description := "Nav for /b" |} false;
               received := None |}
            _ _ false false two_in_flight_reachable _ eq_refl _ eq_refl)) _).
  - vm_compute. reflexivity.
  - vm_compute. reflexivity.
  - lia.
Defined.

Lemma differs_false (t : Symbol) (current : option Symbol) :
  differs_from_current t current = false →
  ∃ latest, current = Some latest ∧ sym_id t = sym_id latest.
Proof.
  destruct current as [latest|]; [|done]. cbn. unfold same_symbol.
  intros Hd. exists latest. split; [done|].
  apply negb_false_iff, bool_decide_eq_true in Hd. done.
Qed.

(** X4. In every reachable state at most one pipeline of [navigate]
    passes the token check: two pipelines whose tokens both equal
    [latestNav.current] are the same pipeline, so at most one fetch in
    flight can still mutate the history. *)
Theorem one_navigation_can_commit (w : World) (p q : nat) (plp plq : Pipeline)
    (tp tq : Symbol) (rp rq : bool) :
  reachable w →
  pipelines w !! p = Some plp → origin plp = Navigate tp rp →
  differs_from_current tp (latestNav w) = false →
  pipelines w !! q = Some plq → origin plq = Navigate tq rq →
  differs_from_current tq (latestNav w) = false →
  p = q.
Proof.
  intros Hr Hp Hop Hdp Hq Hoq Hdq. pose proof (reachable_coherent w Hr) as Hcoh.
  apply differs_false in Hdp as (latest & Hl & Hidp).
  apply differs_false in Hdq as (latest' & Hl' & Hidq). simplify_eq.
  destruct (decide (p = q)) as [|Hne]; [done|exfalso].
  destruct (decide (p < q)) as [Hlt|Hge].
  - pose proof (coh_order w Hcoh _ _ _ _ _ _ _ _ Hlt Hp Hop Hq Hoq). lia.
  - assert (q < p) as Hlt by lia.
    pose proof (coh_order w Hcoh _ _ _ _ _ _ _ _ Hlt Hq Hoq Hp Hop). lia.
Qed.

Lemma one_navigation_can_commit_witness :
  latestNav two_in_flight = Some {| sym_id := 1; sym_description := "Nav for /b" |} ∧
  ∀ q plq tq rq,
    pipelines two_in_flight !! q = Some plq → origin plq = Navigate tq rq →
    differs_from_current tq (latestNav two_in_flight) = false → q = 2.
Proof.
  split; [reflexivity|].
  intros q plq tq rq Hq Hoq Hdq. symmetry.
  apply (one_navigation_can_commit two_in_flight 2 q
           {| destination := "/b";
              origin := Navigate {| sym_id := 1; sym_description := "Nav for /b" |} false;
              received := None |} plq
           {| sym_id := 1; sym_description := "Nav for /b" |} tq false rq
           two_in_flight_reachable); try assumption.
  - vm_compute. reflexivity.
  - reflexivity.
  - reflexivity.
Defined.

Lemma superseded_step (w : World) (e : Event) (p : nat) :
  invariant w → coherent w → superseded w p → superseded (step w e) p.
Proof.
  intros Hinv Hcoh Hs. destruct e as [l options|delta|q o]; cbn.
  - by apply superseded_navigate.
  - destruct (WindowHistory.traverse delta (history w)) as [h|] eqn:Ht; [|done].
    apply superseded_handlePopState; [|done].
    apply coherent_traversed; [by eapply wf_traverse | done].
  - by apply superseded_settle.
Qed.

(** X5. A navigation that has been superseded stays superseded whatever
    happens next: no later call of [navigate], popstate or settlement
    makes its token the latest again, so it never commits. *)
Theorem superseded_forever (w : World) (es : list Event) (p : nat) :
  reachable w → superseded w p →
  superseded (run w es) p ∧
  ∀ o, history_calls (settle p o (run w es)) = history_calls (run w es).
Proof.
  intros Hr Hs.
  assert (superseded (run w es) p) as Hlater.
  { revert w Hr Hs. induction es as [|e es IH]; intros w Hr Hs; [done|].
    cbn. apply IH; [by apply reachable_step|].
    apply superseded_step;
      [by apply reachable_invariant | by apply reachable_coherent | done]. }
  split; [done|]. intros o.
  by destruct (settle_superseded_inert p o (run w es) Hlater) as (_ & Hc & _).
Qed.

Lemma superseded_forever_witness :
  superseded two_in_flight 1 ∧
  ∀ o, history_calls
         (settle 1 o (run two_in_flight [Traverses (-1); Navigates "/c" None])) = [].
Proof.
  assert (superseded two_in_flight 1) as Hs.
  { eexists _, _, _. split; [vm_compute; reflexivity|]. split; reflexivity. }
  split; [exact Hs|]. intros o.
  exact (proj2 (superseded_forever two_in_flight
                  [Traverses (-1); Navigates "/c" None] 1
                  two_in_flight_reachable Hs) o).
Defined.

Section RenderNeverReadsUndefined.

Context {Tree : Type}
  (decode decode' : Settled (option Response) → option (Settled Tree)).

(** X6. In every reachable state the pipeline behind the installed
    content promise has not received [undefined]; the render of [Root] is
    therefore the same under two decoders that differ on [undefined]
    only. *)
Theorem render_never_reads_undefined (w : World) :
  reachable w →
  (∀ r, r ≠ Fulfilled None → decode r = decode' r) →
  (∀ pl, pipelines w !! contentPromise w = Some pl →
         received pl ≠ Some (Fulfilled None)) ∧
  Root decode w = Root decode' w.
Proof.
  intros Hr Hsame.
  assert (∀ pl, pipelines w !! contentPromise w = Some pl →
                received pl ≠ Some (Fulfilled None)) as Hdef.
  { intros pl Hpl Hrec.
    pose proof (coh_undefined w (reachable_coherent w Hr) _ pl Hpl Hrec) as Hs.
    pose proof (superseded_older w _ (reachable_invariant w Hr) Hs). lia. }
  split; [done|]. unfold Root.
  destruct (pipelines w !! contentPromise w) as [pl|] eqn:Hpl; [|done].
  specialize (Hdef pl eq_refl).
  destruct (received pl) as [r|]; [|done].
  rewrite (Hsame r); [done | congruence].
Qed.

End RenderNeverReadsUndefined.

Lemma render_never_reads_undefined_witness :
  Root body_decoder (step two_in_flight (FetchSettles 1 (loaded "a"))) =
  Root strict_decoder (step two_in_flight (FetchSettles 1 (loaded "a"))).
Proof.
  refine (proj2 (render_never_reads_undefined body_decoder strict_decoder
                   (step two_in_flight (FetchSettles 1 (loaded "a"))) _ _)).
  - exact (reachable_step _ _ two_in_flight_reachable).
  - intros [[response|]|reason] Hne; [reflexivity | congruence | reflexivity].
Defined.

(** X7. In every reachable state every call made on the history belongs
    to a navigation whose fetch was fulfilled with a response: the call is
    the push or the replace of that navigation, for its destination. *)
Theorem history_calls_sound (w : World) (c : HistoryCall) :
  reachable w → c ∈ history_calls w →
  ∃ p pl thisNav replace response,
    pipelines w !! p = Some pl ∧ origin pl = Navigate thisNav replace ∧
    received pl = Some (Fulfilled (Some response)) ∧
    c = history_call replace (destination pl).
Proof. intros Hr. apply (coh_log w (reachable_coherent w Hr)). Qed.

Lemma history_calls_sound_witness :
  ∃ p pl thisNav replace response,
    pipelines (step two_in_flight (FetchSettles 2 (loaded "b"))) !! p = Some pl ∧
    origin pl = Navigate thisNav replace ∧
    received pl = Some (Fulfilled (Some response)) ∧
    PushState "/b" = history_call replace (destination pl).
Proof.
  apply (history_calls_sound (step two_in_flight (FetchSettles 2 (loaded "b")))
           (PushState "/b")).
  - exact (reachable_step _ _ two_in_flight_reachable).
  - replace (history_calls (step two_in_flight (FetchSettles 2 (loaded "b"))))
      with [PushState "/b"] by (vm_compute; reflexivity).
    apply list_elem_of_In. left. reflexivity.
Defined.

Lemma step_lookup_keep (w : World) (e : Event) (q : nat) (pl : Pipeline) :
  coherent w → pipelines w !! q = Some pl →
  ∃ pl', pipelines (step w e) !! q = Some pl' ∧
         destination pl' = destination pl ∧ origin pl' = origin pl ∧
         ∀ r, received pl = Some r → received pl' = Some r.
Proof.
  intros Hcoh Hq.
  assert (q < length (requests w)) as Hlt by (by apply (coh_keys w Hcoh); exists pl).
  destruct e as [l options|delta|p o]; cbn [step].
  - exists pl. rewrite navigate_unfold. cbn. by rewrite lookup_insert_ne by lia.
  - destruct (WindowHistory.traverse delta (history w)) as [h|]; [|by exists pl].
    exists pl. rewrite handlePopState_unfold. cbn. by rewrite lookup_insert_ne by lia.
  - destruct (settle_lookup_keep p o w q pl Hq) as (pl' & Hq' & Hd & Ho & Hrec).
    exists pl'. repeat split; try done. intros r Hr.
    destruct Hrec as [Hsame|[_ Hnone]]; congruence.
Qed.

(** X8. From a reachable state on, a pipeline keeps its destination and
    its origin for good, and what it has received is final: no later event
    replaces a pipeline or settles it a second time. *)
Theorem pipelines_are_final (w : World) (es : list Event) (q : nat) (pl : Pipeline) :
  reachable w → pipelines w !! q = Some pl →
  ∃ pl', pipelines (run w es) !! q = Some pl' ∧
         destination pl' = destination pl ∧ origin pl' = origin pl ∧
         ∀ r, received pl = Some r → received pl' = Some r.
Proof.
  revert w pl. induction es as [|e es IH]; intros w pl Hr Hq.
  { exists pl. by repeat split. }
  destruct (step_lookup_keep w e q pl (reachable_coherent w Hr) Hq)
    as (pl1 & Hq1 & Hd1 & Ho1 & Hr1).
  destruct (IH (step w e) pl1 (reachable_step w e Hr) Hq1)
    as (pl2 & Hq2 & Hd2 & Ho2 & Hr2).
  exists pl2. rewrite run_cons. split; [done|]. split; [congruence|].
  split; [congruence|]. intros r Hrec. eauto.
Qed.

Lemma pipelines_are_final_witness :
  origin <$> pipelines two_in_flight !! 0 = Some InitialLoad ∧
  ∀ es, ∃ pl',
    pipelines (run two_in_flight es) !! 0 = Some pl' ∧
    received pl' = Some (Fulfilled (Some {| status := 200; body := "list" |})).
Proof.
  split; [vm_compute; reflexivity|]. intros es.
  destruct (pipelines_are_final two_in_flight es 0
              {| destination := "/list"; origin := InitialLoad;
                 received := Some (Fulfilled (Some {| status := 200; body := "list" |})) |}
              two_in_flight_reachable)
    as (pl' & Hq & _ & _ & Hrec).
  - vm_compute. reflexivity.
  - exists pl'. split; [exact Hq|]. apply Hrec. reflexivity.
Defined.

(** ** The address bar around a navigation *)

Lemma getGlobalLocation_pushState (l : Location) (h : WindowHistory.t) :
  WindowHistory.wf h → getGlobalLocation (WindowHistory.pushState l h) = l.
Proof.
  unfold WindowHistory.wf, getGlobalLocation, WindowHistory.pushState. intros Hwf.
  cbn [WindowHistory.entries WindowHistory.index].
  rewrite lookup_app_r; rewrite length_take; [|lia].
  by replace (S (WindowHistory.index h) -
              S (WindowHistory.index h) `min` length (WindowHistory.entries h))
    with 0 by lia.
Qed.

Lemma getGlobalLocation_replaceState (l : Location) (h : WindowHistory.t) :
  WindowHistory.wf h → getGlobalLocation (WindowHistory.replaceState l h) = l.
Proof.
  unfold WindowHistory.wf, getGlobalLocation, WindowHistory.replaceState. intros Hwf.
  cbn [WindowHistory.entries WindowHistory.index].
  by rewrite list_lookup_insert_eq.
Qed.

(** Going back from the entry that a push has just added, and forward
    again. *)
Lemma traverse_back_after_push (l : Location) (h : WindowHistory.t) :
  WindowHistory.wf h →
  ∃ h', WindowHistory.traverse (-1) (WindowHistory.pushState l h) = Some h' ∧
        getGlobalLocation h' = getGlobalLocation h ∧
        WindowHistory.traverse 1 h' = Some (WindowHistory.pushState l h).
Proof.
  unfold WindowHistory.wf. intros Hwf.
  assert (length (take (S (WindowHistory.index h)) (WindowHistory.entries h))
          = S (WindowHistory.index h)) as Hlen by (rewrite length_take; lia).
  exists {| WindowHistory.entries := WindowHistory.entries (WindowHistory.pushState l h);
            WindowHistory.index := WindowHistory.index h |}.
  unfold WindowHistory.traverse, WindowHistory.pushState, getGlobalLocation.
  cbn [WindowHistory.entries WindowHistory.index].
  rewrite !length_app, !Hlen. cbn [length].
  rewrite !bool_decide_eq_true_2 by lia.
  split; [f_equal; f_equal; lia|]. split.
  - rewrite lookup_app_l by lia. by rewrite lookup_take_lt by lia.
  - f_equal. f_equal. lia.
Qed.

Lemma step_traverses (delta : Z) (w : World) (h : WindowHistory.t) :
  WindowHistory.traverse delta (history w) = Some h →
  step w (Traverses delta) = handlePopState (with_history h (history_calls w) w).
Proof. intros Ht. cbn [step]. by rewrite Ht. Qed.

(** Back and forward from a state whose current entry was just pushed. *)
Lemma back_and_forward (l : Location) (h : WindowHistory.t) (w1 : World) :
  WindowHistory.wf h → history w1 = WindowHistory.pushState l h →
  nextLocation (step w1 (Traverses (-1))) = getGlobalLocation h ∧
  requests (step w1 (Traverses (-1))) =
    requests w1 ++ ["/rsc" +:+ getGlobalLocation h] ∧
  nextLocation (step (step w1 (Traverses (-1))) (Traverses 1)) = l ∧
  requests (step (step w1 (Traverses (-1))) (Traverses 1)) =
    requests (step w1 (Traverses (-1))) ++ ["/rsc" +:+ l] ∧
  history (step (step w1 (Traverses (-1))) (Traverses 1)) = history w1 ∧
  history_calls (step (step w1 (Traverses (-1))) (Traverses 1)) = history_calls w1.
Proof.
  intros Hwf Hh1.
  destruct (traverse_back_after_push l h Hwf) as (h' & Hback & Hloc & Hfwd).
  rewrite <- Hh1 in Hback, Hfwd.
  rewrite (step_traverses _ _ _ Hback).
  assert (WindowHistory.traverse 1
            (history (handlePopState (with_history h' (history_calls w1) w1)))
          = Some (history w1)) as Hfwd' by exact Hfwd.
  rewrite (step_traverses _ _ _ Hfwd').
  rewrite !handlePopState_unfold.
  cbn [history history_calls nextLocation requests with_history].
  rewrite Hh1, getGlobalLocation_pushState, Hloc by done. done.
Qed.

(** X10. When the navigation just started, to a [canonical] location,
    gets a response, whatever its status, it commits: the address bar, [nextLocation] and the installed
    content are all for the destination, and the content is that response.
    No status is looked at. *)
Theorem navigation_commits_any_status (l : Location) (options : option NavigateOptions)
    (response : Response) (w : World) :
  WindowHistory.wf (history w) → canonical l = true →
  let w1 := settle (length (requests w)) (HttpResponse response)
              (navigate l options w) in
  getGlobalLocation (history w1) = l ∧
  nextLocation w1 = l ∧
  c_content (committed w1) = Some (l, Some (Fulfilled (Some response))) ∧
  history_calls w1 = history_calls w ++ [history_call (replace_of options) l].
Proof.
  intros Hwf _. cbv zeta.
  pose proof (committed_settle_navigate l options (HttpResponse response) w) as Hc.
  cbv beta iota in Hc.
  apply (f_equal c_history) in Hc as Hh. apply (f_equal c_nextLocation) in Hc as Hn.
  apply (f_equal c_content) in Hc as Hcont.
  apply (f_equal c_history_calls) in Hc as Hcalls.
  cbn [committed c_history c_nextLocation c_content c_history_calls] in Hh, Hn, Hcalls.
  rewrite Hh, Hn, Hcont, Hcalls. cbn [c_content].
  split; [|done]. destruct (replace_of options);
    [by apply getGlobalLocation_replaceState | by apply getGlobalLocation_pushState].
Qed.

Lemma navigation_commits_any_status_witness :
  let w1 := settle 1 (HttpResponse {| status := 500; body := "Internal Server Error" |})
              (navigate "/a" None (initial_world list_after_home)) in
  getGlobalLocation (history w1) = "/a" ∧
  history_calls w1 = [PushState "/a"].
Proof.
  cbv zeta.
  destruct (navigation_commits_any_status "/a" None
              {| status := 500; body := "Internal Server Error" |}
              (initial_world list_after_home))
    as (Hloc & _ & _ & Hcalls).
  - unfold WindowHistory.wf. cbn. lia.
  - reflexivity.
  - split; [exact Hloc | exact Hcalls].
Defined.

Section FailedNavigation.

Context {Tree : Type} (decode : Settled (option Response) → option (Settled Tree)).

(** X11. When the fetch of the navigation just started fails, the
    history and the calls made on it are as before the navigation, while
    [nextLocation] stays at the destination; the rejection is what the
    installed content promise receives, so [Root] renders what the decoder
    makes of that rejection. *)
Theorem failed_navigation_leaves_history (l : Location)
    (options : option NavigateOptions) (reason : string) (w : World) :
  let w1 := settle (length (requests w)) (NetworkFailure reason)
              (navigate l options w) in
  history w1 = history w ∧ history_calls w1 = history_calls w ∧
  nextLocation w1 = l ∧
  c_content (committed w1) = Some (l, Some (Rejected reason)) ∧
  Root decode w1 =
    match decode (Rejected reason) with
    | None => Suspends
    | Some (Fulfilled tree) => Renders tree
    | Some (Rejected reason') => Throws reason'
    end.
Proof.
  cbv zeta. rewrite settle_after_navigate. cbv zeta.
  unfold Root, committed. cbn. by rewrite lookup_insert_eq.
Qed.

End FailedNavigation.

(** ** Requests are never withdrawn *)

Lemma step_requests (w : World) (e : Event) :
  requests (step w e) = requests w ∨
  ∃ path, requests (step w e) = requests w ++ [path].
Proof.
  destruct e as [l options|delta|p o]; cbn [step].
  - right. by eexists.
  - destruct (WindowHistory.traverse delta (history w)); [|by left].
    right. by eexists.
  - left. apply settle_requests.
Qed.

(** X12. Whatever happens, the requests made so far stay as they are:
    a run of events only adds requests at the end, one per event at most,
    and a run of settlements adds none. *)
Theorem requests_only_grow (w : World) (es : list Event) (ss : list (nat * NetworkOutcome)) :
  requests w `prefix_of` requests (run w es) ∧
  length (requests (run w es)) ≤ length (requests w) + length es ∧
  requests (run w (settlements ss)) = requests w.
Proof.
  split; [|split].
  - revert w. induction es as [|e es IH]; intros w; [done|].
    rewrite run_cons. etrans; [|apply IH].
    destruct (step_requests w e) as [->|[path ->]]; [done|].
    by apply prefix_app_r.
  - revert w. induction es as [|e es IH]; intros w; [cbn; lia|].
    rewrite run_cons. specialize (IH (step w e)).
    destruct (step_requests w e) as [Heq|[path Heq]]; rewrite Heq in IH;
      rewrite ?length_app in IH; cbn in *; lia.
  - revert w. induction ss as [|[p o] ss IH]; intros w; [done|].
    unfold settlements in *. cbn [map fst snd]. rewrite run_cons. cbn [step].
    by rewrite IH, settle_requests.
Qed.

(** X13. A committed navigation in replace mode leaves back and forward
    as they were: from the state it leaves, a traversal by [delta] is
    possible exactly when it was possible before the navigation, and it
    arrives at the same location. *)
Theorem replace_keeps_back_and_forward (l : Location) (options : option NavigateOptions)
    (response : Response) (delta : Z) (w : World) :
  WindowHistory.wf (history w) → replace_of options = true →
  let w1 := settle (length (requests w)) (HttpResponse response)
              (navigate l options w) in
  getGlobalLocation <$> WindowHistory.traverse delta (history w1) =
  getGlobalLocation <$> WindowHistory.traverse delta (history w).
Proof.
  intros Hwf Hrep. cbv zeta. rewrite settle_after_navigate. cbv zeta.
  rewrite Hrep. cbn [history deliver with_pipelines replaceState with_history].
  change (history (navigate l options w)) with (history w).
  unfold WindowHistory.traverse, WindowHistory.replaceState.
  cbn [WindowHistory.entries WindowHistory.index]. rewrite length_insert.
  case_bool_decide as Hin; [|done]. cbn. unfold getGlobalLocation.
  cbn [WindowHistory.entries WindowHistory.index].
  rewrite list_lookup_insert_ne; [done | lia].
Qed.

Lemma replace_keeps_back_and_forward_witness :
  let w1 := settle (length (requests (initial_world list_after_home)))
              (HttpResponse {| status := 200; body := "x" |})
              (navigate "/x" (Some {| opt_replace := Some true |})
                 (initial_world list_after_home)) in
  getGlobalLocation <$> WindowHistory.traverse (-1) (history w1) = Some "/home".
Proof.
  cbv zeta.
  rewrite (replace_keeps_back_and_forward "/x" (Some {| opt_replace := Some true |})
             {| status := 200; body := "x" |} (-1) (initial_world list_after_home)).
  - reflexivity.
  - unfold WindowHistory.wf. cbn. lia.
  - reflexivity.
Defined.

(** ** One history call per navigation at most *)

Lemma in_flight_insert_fresh (p : nat) (pl : Pipeline) (m : gmap nat Pipeline) :
  m !! p = None →
  size (filter (λ kv : nat * Pipeline, awaits_settlement kv.2 = true) (<[p := pl]> m)) =
  (if awaits_settlement pl then 1 else 0) +
  size (filter (λ kv : nat * Pipeline, awaits_settlement kv.2 = true) m).
Proof.
  intros Hnone. rewrite map_filter_insert. cbn.
  destruct (awaits_settlement pl) eqn:Ha.
  - rewrite decide_True by done. rewrite map_size_insert_None; [done|].
    apply map_lookup_filter_None. by left.
  - rewrite decide_False by done. by rewrite delete_id.
Qed.

Lemma in_flight_settled (p : nat) (pl pl' : Pipeline) (m : gmap nat Pipeline) :
  m !! p = Some pl → awaits_settlement pl' = false →
  size (filter (λ kv : nat * Pipeline, awaits_settlement kv.2 = true) (<[p := pl']> m)) +
  (if awaits_settlement pl then 1 else 0) =
  size (filter (λ kv : nat * Pipeline, awaits_settlement kv.2 = true) m).
Proof.
  intros Hp Hfalse. rewrite map_filter_insert. cbn.
  rewrite decide_False by (rewrite Hfalse; done).
  rewrite map_filter_delete, map_size_delete.
  destruct (awaits_settlement pl) eqn:Ha.
  - rewrite (map_lookup_filter_Some_2 _ m p pl Hp Ha).
    assert (size (filter (λ kv : nat * Pipeline, awaits_settlement kv.2 = true) m) ≠ 0).
    { intros Hz. apply map_size_empty_inv in Hz.
      pose proof (map_lookup_filter_Some_2
                    (λ kv : nat * Pipeline, awaits_settlement kv.2 = true) m p pl Hp Ha) as H.
      rewrite Hz in H. by rewrite lookup_empty in H. }
    cbn. lia.
  - rewrite (proj2 (map_lookup_filter_None _ m p)); [cbn; lia|].
    right. intros x Hx. cbn. simplify_eq. by rewrite Ha.
Qed.

Lemma in_flight_deliver (p : nat) (pl : Pipeline) (r : Settled (option Response))
    (w : World) :
  pipelines w !! p = Some pl →
  navigations_in_flight (deliver p pl r w) +
  (if awaits_settlement pl then 1 else 0) = navigations_in_flight w.
Proof.
  intros Hpl. unfold navigations_in_flight.
  cbn [deliver with_pipelines pipelines].
  apply in_flight_settled; [done|].
  unfold awaits_settlement. cbn. by destruct (origin pl).
Qed.

(** The calls made on the history and the navigations still in flight
    never add up to more than the symbols created. *)
Lemma calls_and_in_flight_step (w : World) (e : Event) :
  coherent w →
  length (history_calls w) + navigations_in_flight w ≤ symbols w →
  length (history_calls (step w e)) + navigations_in_flight (step w e)
    ≤ symbols (step w e).
Proof.
  intros Hcoh Hle.
  assert (pipelines w !! length (requests w) = None) as Hfresh.
  { apply eq_None_not_Some. rewrite (coh_keys w Hcoh). lia. }
  destruct e as [l options|delta|p o]; cbn [step].
  - unfold navigations_in_flight in *. rewrite navigate_unfold.
    cbn [history_calls pipelines symbols].
    rewrite in_flight_insert_fresh by done. cbn. lia.
  - destruct (WindowHistory.traverse delta (history w)); [|done].
    unfold navigations_in_flight in *. rewrite handlePopState_unfold.
    cbn [history_calls pipelines symbols with_history].
    rewrite in_flight_insert_fresh by done. cbn. lia.
  - settle_inversion p o w; try done.
    + pose proof (in_flight_deliver p pl (Rejected reason) w Hpl) as Hs.
      change (history_calls (deliver p pl (Rejected reason) w)) with (history_calls w).
      change (symbols (deliver p pl (Rejected reason) w)) with (symbols w).
      destruct (awaits_settlement pl); lia.
    + pose proof (in_flight_deliver p pl (Fulfilled (Some response)) w Hpl) as Hs.
      change (history_calls (deliver p pl (Fulfilled (Some response)) w))
        with (history_calls w).
      change (symbols (deliver p pl (Fulfilled (Some response)) w)) with (symbols w).
      destruct (awaits_settlement pl); lia.
    + pose proof (in_flight_deliver p pl (Fulfilled None) w Hpl) as Hs.
      change (history_calls (deliver p pl (Fulfilled None) w)) with (history_calls w).
      change (symbols (deliver p pl (Fulfilled None) w)) with (symbols w).
      destruct (awaits_settlement pl); lia.
    + assert (awaits_settlement pl = true) as Ha
        by (unfold awaits_settlement; by rewrite Hor, Hr).
      destruct replace.
      * pose proof (in_flight_deliver p pl (Fulfilled (Some response))
                      (replaceState (destination pl) w) Hpl) as Hs.
        rewrite Ha in Hs.
        change (navigations_in_flight (replaceState (destination pl) w))
          with (navigations_in_flight w) in Hs.
        cbn [deliver with_pipelines history_calls symbols replaceState with_history].
        rewrite length_app. cbn [length]. lia.
      * pose proof (in_flight_deliver p pl (Fulfilled (Some response))
                      (pushState (destination pl) w) Hpl) as Hs.
        rewrite Ha in Hs.
        change (navigations_in_flight (pushState (destination pl) w))
          with (navigations_in_flight w) in Hs.
        cbn [deliver with_pipelines history_calls symbols pushState with_history].
        rewrite length_app. cbn [length]. lia.
Qed.

Lemma symbols_run (w : World) (es : list Event) :
  symbols (run w es) = symbols w + navigate_calls es.
Proof.
  revert w. induction es as [|e es IH]; intros w; [cbn; lia|].
  rewrite run_cons, IH. destruct e as [l options|delta|p o]; cbn [step navigate_calls].
  - rewrite navigate_unfold. cbn. lia.
  - destruct (WindowHistory.traverse delta (history w)); [|done].
    by rewrite handlePopState_unfold.
  - by rewrite settle_symbols.
Qed.

(** X14. In every run of the program from the page load, the calls made
    on the history and the navigations still in flight never add up to
    more than the calls of [navigate]: each call of [navigate] leads to one
    [pushState] or [replaceState] at most, and neither the initial load
    nor a popstate ever leads to one. *)
Theorem one_history_call_per_navigate (h : WindowHistory.t) (es : list Event) :
  WindowHistory.wf h →
  let w := run (initial_world h) es in
  length (history_calls w) + navigations_in_flight w ≤ navigate_calls es.
Proof.
  intros Hwf. cbv zeta.
  assert (∀ w es,
            invariant w → coherent w →
            length (history_calls w) + navigations_in_flight w ≤ symbols w →
            length (history_calls (run w es)) + navigations_in_flight (run w es)
              ≤ symbols (run w es)) as Hrun.
  { intros w es'. revert w. induction es' as [|e es' IH]; intros w Hinv Hcoh Hle; [done|].
    rewrite run_cons. apply IH;
      [by apply invariant_step | by apply coherent_step
      | by apply calls_and_in_flight_step]. }
  specialize (Hrun (initial_world h) es (invariant_initial h)
                (coherent_initial h Hwf)).
  rewrite symbols_run in Hrun. apply Hrun.
  vm_compute. lia.
Qed.

Lemma one_history_call_per_navigate_witness :
  length (history_calls
            (run (initial_world list_after_home)
               [FetchSettles 0 (loaded "list"); Navigates "/a" None;
                Navigates "/b" None; FetchSettles 1 (loaded "a");
                FetchSettles 2 (loaded "b"); FetchSettles 2 (loaded "b")])) ≤ 2.
Proof.
  pose proof (one_history_call_per_navigate list_after_home
                [FetchSettles 0 (loaded "list"); Navigates "/a" None;
                 Navigates "/b" None; FetchSettles 1 (loaded "a");
                 FetchSettles 2 (loaded "b"); FetchSettles 2 (loaded "b")]
                ltac:(unfold WindowHistory.wf; cbn; lia)) as H.
  cbv zeta in H. cbn [navigate_calls] in H. lia.
Defined.

(** ** The page *)

Lemma settle_setNextLocation (p : nat) (o : NetworkOutcome) (n : Location) (w : World) :
  settle p o (setNextLocation n w) = setNextLocation n (settle p o w).
Proof.
  unfold settle. cbn [setNextLocation pipelines].
  destruct (pipelines w !! p) as [pl|]; [|done].
  destruct (received pl); [done|].
  destruct (fetch_settles o) as [response|reason]; [|done].
  destruct (origin pl) as [| |thisNav replace]; [done..|].
  unfold onFulfilled. cbn [setNextLocation latestNav].
  destruct (differs_from_current thisNav (latestNav w)); [done|].
  by destruct replace.
Qed.

Lemma page_coherent_load (h : WindowHistory.t) :
  WindowHistory.wf h → page_coherent (page_load h).
Proof.
  intros Hwf. exists (initial_world h), (nextLocation (initial_world h)).
  split; [apply invariant_initial|]. split; [by apply coherent_initial|].
  split; [done|]. split; [by left | done].
Qed.

Section PageProperties.

Context {Tree : Type} (decode : Settled (option Response) → option (Settled Tree)).

Lemma page_coherent_step (pg : Page) (ev : PageEvent) :
  page_coherent pg → page_coherent (page_step decode pg ev).
Proof.
  intros (w0 & n & Hinv & Hcoh & Hw & Hn & Hl).
  assert (page_coherent pg) as Hsame by (by exists w0, n).
  destruct pg as [w lc]. cbn [world lifecycle] in Hw, Hl. subst w.
  destruct ev as [[l options|delta|p o]| |]; cbn [page_step world lifecycle].
  - destruct lc; [done| |done]. exists (navigate l options w0), l.
    split; [by apply invariant_navigate|]. split; [by apply coherent_navigate|].
    split; [done|]. split; [by left | done].
  - change (history (setNextLocation n w0)) with (history w0).
    change (history_calls (setNextLocation n w0)) with (history_calls w0).
    destruct (WindowHistory.traverse delta (history w0)) as [h|] eqn:Ht; [|done].
    assert (WindowHistory.wf h) as Hwf by (by eapply wf_traverse).
    pose proof (invariant_with_history h (history_calls w0) w0 Hinv) as Hinv'.
    pose proof (coherent_traversed h w0 Hwf Hcoh) as Hcoh'.
    destruct lc.
    + exists (with_history h (history_calls w0) w0), n.
      split; [exact Hinv'|]. split; [exact Hcoh'|]. split; [done|].
      split; [exact Hn | done].
    + exists (handlePopState (with_history h (history_calls w0) w0)),
        (getGlobalLocation h).
      split; [by apply invariant_handlePopState|].
      split; [by apply coherent_handlePopState|].
      split; [done|]. split; [by left | done].
    + exists (with_history h (history_calls w0) w0), n.
      split; [exact Hinv'|]. split; [exact Hcoh'|]. split; [done|].
      split; [exact Hn | done].
  - exists (settle p o w0), n.
    split; [by apply invariant_settle|]. split; [by apply coherent_settle|].
    rewrite settle_nextLocation, settle_contentPromise.
    split; [by rewrite settle_setNextLocation | by split].
  - destruct lc; [|done..].
    destruct (renders decode (setNextLocation n w0)); [|done].
    exists w0, (getGlobalLocation (history w0)). cbn [world lifecycle].
    split; [done|]. split; [done|]. split; [done|]. split; [right; by apply Hl | done].
  - destruct lc; [| |done];
      (destruct (throws decode (setNextLocation n w0)); [|done]);
      exists w0, n; (split; [done|]); (split; [done|]); (split; [done|]);
      (split; [exact Hn | done]).
Qed.

Lemma page_coherent_run (pg : Page) (evs : list PageEvent) :
  page_coherent pg → page_coherent (page_run decode pg evs).
Proof.
  revert pg. induction evs as [|ev evs IH]; intros pg Hpg; [done|].
  cbn. by apply IH, page_coherent_step.
Qed.

Lemma page_reachable_coherent (pg : Page) :
  page_reachable decode pg → page_coherent pg.
Proof.
  intros (h & evs & Hwf & ->). by apply page_coherent_run, page_coherent_load.
Qed.

(** While [Root] is mounted, an event of the program acts on the world
    as [step] says, and [Root] stays mounted. *)
Lemma page_step_mounted (pg : Page) (e : Event) :
  lifecycle pg = Mounted →
  world (page_step decode pg (Happens e)) = step (world pg) e ∧
  lifecycle (page_step decode pg (Happens e)) = Mounted.
Proof.
  destruct pg as [w lc]. cbn [world lifecycle]. intros ->.
  destruct e as [l options|delta|p o]; cbn [page_step step world lifecycle]; [done| |done].
  by destruct (WindowHistory.traverse delta (history w)).
Qed.

End PageProperties.

Section PageTheorems.

Context {Tree : Type} (decode : Settled (option Response) → option (Settled Tree)).

(** X2. On every page the program reaches, the installed content
    promise is the fetch started last, and the last request is the one
    for its destination.  That destination is [nextLocation], except
    while the installed content is still the initial one: [Root] reads
    [nextLocation] from the address bar when it mounts, and the browser
    may have moved since the initial fetch was started. *)
Theorem installed_content_is_newest (pg : Page) :
  page_reachable decode pg →
  S (contentPromise (world pg)) = length (requests (world pg)) ∧
  ∃ pl, pipelines (world pg) !! contentPromise (world pg) = Some pl ∧
        last (requests (world pg)) = Some ("/rsc" +:+ destination pl) ∧
        (contentPromise (world pg) = 0 ∨ destination pl = nextLocation (world pg)).
Proof.
  intros Hr.
  destruct (page_reachable_coherent decode pg Hr)
    as (w0 & n & Hinv & Hcoh & Hw & Hn & _).
  rewrite Hw. cbn [setNextLocation contentPromise requests pipelines nextLocation].
  pose proof (coh_newest w0 Hcoh) as Hnew.
  destruct (coh_shown w0 Hcoh) as (pl & Hpl & Hdest).
  split; [done|]. exists pl. split; [done|]. split.
  - rewrite last_lookup, <- Hnew. cbn. by apply (coh_paths w0 Hcoh).
  - destruct Hn as [->|Hzero]; [by right | by left].
Qed.

Lemma page_navigation (l : Location) (options : option NavigateOptions)
    (p : nat) (o : NetworkOutcome) (pg : Page) :
  lifecycle pg = Mounted →
  page_run decode pg [Happens (Navigates l options); Happens (FetchSettles p o)] =
  {| world := settle p o (navigate l options (world pg)); lifecycle := Mounted |}.
Proof. destruct pg as [w lc]. cbn [lifecycle world]. by intros ->. Qed.

(** Back and forward on a page where [Root] is mounted and the current
    entry was just pushed. *)
Lemma page_back_and_forward (l : Location) (h : WindowHistory.t) (pg1 : Page) :
  lifecycle pg1 = Mounted → WindowHistory.wf h →
  history (world pg1) = WindowHistory.pushState l h →
  let pg2 := page_step decode pg1 (Happens (Traverses (-1))) in
  let pg3 := page_step decode pg2 (Happens (Traverses 1)) in
  nextLocation (world pg2) = getGlobalLocation h ∧
  requests (world pg2) = requests (world pg1) ++ ["/rsc" +:+ getGlobalLocation h] ∧
  nextLocation (world pg3) = l ∧
  requests (world pg3) = requests (world pg2) ++ ["/rsc" +:+ l] ∧
  history (world pg3) = history (world pg1) ∧
  history_calls (world pg3) = history_calls (world pg1).
Proof.
  intros Hm Hwf Hh1. cbv zeta.
  destruct (page_step_mounted decode pg1 (Traverses (-1)) Hm) as [Hw2 Hm2].
  destruct (page_step_mounted decode _ (Traverses 1) Hm2) as [Hw3 _].
  rewrite Hw3, Hw2. by apply back_and_forward.
Qed.

(** Back on a page where the error boundary has replaced [Root]: the
    browser moves, nobody listens. *)
Lemma page_back_unheard (l : Location) (h : WindowHistory.t) (pg1 : Page) :
  lifecycle pg1 = Failed → WindowHistory.wf h →
  history (world pg1) = WindowHistory.pushState l h →
  let pg2 := page_step decode pg1 (Happens (Traverses (-1))) in
  lifecycle pg2 = Failed ∧
  getGlobalLocation (history (world pg2)) = getGlobalLocation h ∧
  requests (world pg2) = requests (world pg1) ∧
  nextLocation (world pg2) = nextLocation (world pg1) ∧
  contentPromise (world pg2) = contentPromise (world pg1).
Proof.
  destruct pg1 as [w1 lc]. cbn [lifecycle world]. intros -> Hwf Hh1.
  destruct (traverse_back_after_push l h Hwf) as (h' & Hback & Hloc & _).
  rewrite <- Hh1 in Hback. cbv zeta. cbn [page_step world lifecycle].
  by rewrite Hback.
Qed.

(** X9. Let [Root] be mounted, the history have a current entry, and a
    navigation in push mode to a canonical location commit.  The address
    bar is then at the destination.  When the render of the response
    does not throw, [Root] stays mounted: going back asks for the content
    of the location the navigation started from and shows it as next, and
    going forward again asks for the destination; neither makes a call on
    the history.  When the render of the response throws and the error
    boundary replaces [Root], going back moves the browser to where the
    navigation started and nothing is fetched. *)
Theorem push_back_forward (l : Location) (options : option NavigateOptions)
    (response : Response) (pg : Page) :
  lifecycle pg = Mounted → WindowHistory.wf (history (world pg)) →
  canonical l = true → replace_of options = false →
  let w := world pg in
  let pg1 := page_run decode pg
               [Happens (Navigates l options);
                Happens (FetchSettles (length (requests w)) (HttpResponse response))] in
  let pg2 := page_step decode pg1 (Happens (Traverses (-1))) in
  let pg3 := page_step decode pg2 (Happens (Traverses 1)) in
  let unheard := page_step decode (page_step decode pg1 BoundaryCatches)
                   (Happens (Traverses (-1))) in
  getGlobalLocation (history (world pg1)) = l ∧
  (throws decode (world pg1) = false →
   nextLocation (world pg2) = getGlobalLocation (history w) ∧
   requests (world pg2) =
     requests (world pg1) ++ ["/rsc" +:+ getGlobalLocation (history w)] ∧
   nextLocation (world pg3) = l ∧
   requests (world pg3) = requests (world pg2) ++ ["/rsc" +:+ l] ∧
   history (world pg3) = history (world pg1) ∧
   history_calls (world pg3) = history_calls w ++ [PushState l]) ∧
  (throws decode (world pg1) = true →
   lifecycle unheard = Failed ∧
   getGlobalLocation (history (world unheard)) = getGlobalLocation (history w) ∧
   requests (world unheard) = requests (world pg1) ∧
   nextLocation (world unheard) = l).
Proof.
  intros Hm Hwf _ Hpush. cbv zeta. rewrite (page_navigation _ _ _ _ _ Hm).
  pose proof (committed_settle_navigate l options (HttpResponse response) (world pg))
    as Hc.
  cbv beta iota in Hc. rewrite Hpush in Hc.
  apply (f_equal c_history) in Hc as Hh1.
  apply (f_equal c_history_calls) in Hc as Hc1.
  apply (f_equal c_nextLocation) in Hc as Hn1.
  cbn [committed c_history c_history_calls c_nextLocation history_call] in Hh1, Hc1, Hn1.
  set (w1 := settle (length (requests (world pg))) (HttpResponse response)
               (navigate l options (world pg))) in *.
  clearbody w1. cbn [world].
  split; [rewrite Hh1; by apply getGlobalLocation_pushState|]. split.
  - intros _.
    destruct (page_back_and_forward l (history (world pg))
                {| world := w1; lifecycle := Mounted |} eq_refl Hwf Hh1)
      as (Hn2 & Hr2 & Hn3 & Hr3 & Hh3 & Hc3).
    cbn [world] in *. by rewrite Hc3, Hc1.
  - intros Hthrows. cbn [world] in Hthrows.
    assert (page_step decode {| world := w1; lifecycle := Mounted |} BoundaryCatches
            = {| world := w1; lifecycle := Failed |}) as ->
      by (cbn [page_step world lifecycle]; by rewrite Hthrows).
    destruct (page_back_unheard l (history (world pg))
                {| world := w1; lifecycle := Failed |} eq_refl Hwf Hh1)
      as (Hlc & Hloc & Hreq & Hnext & _).
    rewrite Hnext. by repeat split.
Qed.

End PageTheorems.

Lemma installed_content_is_newest_witness :
  let pg := page_run body_decoder (page_load list_after_home)
              [Happens (Traverses (-1)); Happens (FetchSettles 0 (loaded "list"));
               RootMounts] in
  (lifecycle pg = Mounted ∧ nextLocation (world pg) = "/home") ∧
  ∃ pl, pipelines (world pg) !! contentPromise (world pg) = Some pl ∧
        last (requests (world pg)) = Some ("/rsc" +:+ destination pl) ∧
        (contentPromise (world pg) = 0 ∨ destination pl = nextLocation (world pg)).
Proof.
  cbv zeta. split; [split; reflexivity|].
  refine (proj2 (installed_content_is_newest body_decoder _ _)).
  exists list_after_home,
    [Happens (Traverses (-1)); Happens (FetchSettles 0 (loaded "list")); RootMounts].
  split; [unfold WindowHistory.wf; cbn; lia | reflexivity].
Defined.

Lemma push_back_forward_witness :
  let pg := page_run body_decoder (page_load list_after_home)
              [Happens (FetchSettles 0 (loaded "list")); RootMounts] in
  let pg1 := page_run body_decoder pg
               [Happens (Navigates "/a" None);
                Happens (FetchSettles (length (requests (world pg)))
                           (HttpResponse {| status := 200; body := "a" |}))] in
  let pg2 := page_step body_decoder pg1 (Happens (Traverses (-1))) in
  nextLocation (world pg2) = getGlobalLocation (history (world pg)) ∧
  nextLocation (world (page_step body_decoder pg2 (Happens (Traverses 1)))) = "/a".
Proof.
  cbv zeta.
  destruct (push_back_forward body_decoder "/a" None {| status := 200; body := "a" |}
              (page_run body_decoder (page_load list_after_home)
                 [Happens (FetchSettles 0 (loaded "list")); RootMounts]))
    as (_ & Hheard & _).
  - reflexivity.
  - unfold WindowHistory.wf. vm_compute. lia.
  - reflexivity.
  - reflexivity.
  - destruct (Hheard ltac:(vm_compute; reflexivity)) as (Hback & _ & Hfwd & _).
    split; [exact Hback | exact Hfwd].
Defined.
